(** * Multi-relational link prediction (RGCN encoder, DistMult decoder)

    A shallow embedding of the notebook [02-KG/rgcn-hetnet.ipynb]: the
    two-layer relational encoder, the DistMult decoder, the label
    builder, and the training, validation and reporting steps.

    Conventions of the embedding:
    - a float tensor entry is a real number ([R]); rounding, overflow and
      NaN of the float32 arithmetic are outside that model, so the
      decoder is also given over an arbitrary arithmetic, single
      precision included;
    - a 2-D float tensor is the list of its rows, a 1-D tensor a list;
    - [edge_index], a 2 x M integer tensor, is kept column-wise: column k
      is the pair (edge_index[0,k], edge_index[1,k]);
    - a Python exception is [None] (pure code) or a raised outcome (the
      effectful steps);
    - calls into the libraries (negative sampling, the sklearn metrics,
      the optimizer, the layer constructor, the random initialiser, the
      subgraph loader) are events answered by an environment;
    - the notebook's global names are the fields of one record that the
      steps read and update. *)

From Stdlib Require Import List ZArith Reals Lra Lia Bool Arith Sorted Permutation.
From Stdlib Require Import SpecFloat.
Import ListNotations.

Set Implicit Arguments.

(** ** Tensors *)

Definition Matrix := list (list R).
Definition EdgeIndex := list (Z * Z).

(** The result of [torch.squeeze] on a column of integers: every
    dimension of size one is dropped, so a single entry becomes a 0-dim
    tensor. *)
Inductive IntTensor : Type :=
| Scalar (z : Z)
| Vector (l : list Z).

Module Opt.
Definition bind {A B} (o : option A) (f : A -> option B) : option B :=
  match o with Some a => f a | None => None end.

Fixpoint mapM {A B} (f : A -> option B) (l : list A) : option (list B) :=
  match l with
  | [] => Some []
  | a :: l' =>
      match f a with
      | Some b => match mapM f l' with Some bs => Some (b :: bs) | None => None end
      | None => None
      end
  end.

Fixpoint mapM2 {A B C} (f : A -> B -> option C) (la : list A) (lb : list B)
  : option (list C) :=
  match la, lb with
  | a :: la', b :: lb' =>
      match f a b with
      | Some c => match mapM2 f la' lb' with Some cs => Some (c :: cs) | None => None end
      | None => None
      end
  | _, _ => Some []
  end.
End Opt.

Notation "x <-? c ;; k" := (Opt.bind c (fun x => k))
  (at level 61, c at next level, right associativity).

(** Python indexing of a sequence of length [len]: [i] in [0, len) is
    itself, [i] in [-len, 0) counts from the end, anything else raises
    IndexError. *)
Definition norm_index (len : nat) (i : Z) : option nat :=
  if ((0 <=? i) && (i <? Z.of_nat len))%Z then Some (Z.to_nat i)
  else if ((- Z.of_nat len <=? i) && (i <? 0))%Z then Some (Z.to_nat (i + Z.of_nat len))
  else None.

Definition py_get {A} (t : list A) (i : Z) : option A :=
  match norm_index (length t) i with
  | Some k => nth_error t k
  | None => None
  end.

(** [t[idx]] for an integer index tensor [idx]: the rows of [t] at the
    positions of [idx], in order. *)
Definition index_select {A} (t : list A) (idx : list Z) : option (list A) :=
  Opt.mapM (py_get t) idx.

(** Broadcasting of one dimension: equal sizes go pairwise, a size of one
    is stretched, other sizes do not match. *)
Definition broadcast {A C} (f : A -> A -> option C) (a b : list A) : option (list C) :=
  if length a =? length b then Opt.mapM2 f a b
  else match a, b with
       | [x], _ => Opt.mapM (f x) b
       | _, [y] => Opt.mapM (fun x => f x y) a
       | _, _ => None
       end.

Definition mul_row (a b : list R) : option (list R) :=
  broadcast (fun u v => Some (u * v)%R) a b.

(** [a * b] on 2-D tensors (a tensor without rows carries no width). *)
Definition mul (a b : Matrix) : option Matrix := broadcast mul_row a b.

Definition sum_list (l : list R) : R := fold_right Rplus 0%R l.

(** [torch.sum(t, dim=1)] *)
Definition sum_dim1 (t : Matrix) : list R := map sum_list t.

Definition sigmoid (v : R) : R := (1 / (1 + exp (- v)))%R.

Definition relu (t : Matrix) : Matrix := map (map (Rmax 0)) t.

(** [F.log_softmax(t, dim=1)]: each row minus the logarithm of the sum
    of its exponentials. *)
Definition log_softmax_row (row : list R) : list R :=
  map (fun v => (v - ln (sum_list (map exp row)))%R) row.

Definition log_softmax (t : Matrix) : Matrix := map log_softmax_row t.

(** ** The model *)

(** A convolution layer is its forward function (features, edge index,
    squeezed edge types); [FastRGCNConv] itself is library code. *)
Definition Conv := Matrix -> EdgeIndex -> IntTensor -> option Matrix.

Record RGCN : Type := mkRGCN {
  num_rels : nat;
  conv1 : Conv;
  conv2 : Conv;
  w_rels : Matrix
}.

Definition forward (self : RGCN) (x : Matrix) (edge_index : EdgeIndex)
    (edge_type : IntTensor) : option Matrix :=
  x1 <-? conv1 self x edge_index edge_type ;;
  let x1 := relu x1 in
  x2 <-? conv2 self x1 edge_index edge_type ;;
  let out := log_softmax x2 in
  Some out.

Definition DistMult (embed : Matrix) (edge_index : EdgeIndex) (edge_type : list Z)
    (model : RGCN) : option (list R) :=
  s <-? index_select embed (map fst edge_index) ;;
  o <-? index_select embed (map snd edge_index) ;;
  r <-? index_select (w_rels model) edge_type ;;
  sr <-? mul s r ;;
  sro <-? mul sr o ;;
  let scores := sum_dim1 sro in
  Some (map sigmoid scores).

(** The scalar operations the decoder takes from the tensor library: the
    product of two entries ([*]), the sum of the entries of a row
    ([torch.sum]; the library fixes the order of the additions) and the
    logistic function ([torch.sigmoid]). *)
Record Arith (T : Type) : Type := mkArith {
  a_mul : T -> T -> T;
  a_sum : list T -> T;
  a_sigmoid : T -> T
}.

Definition mul_row_over {T} (A : Arith T) (a b : list T) : option (list T) :=
  broadcast (fun u v => Some (a_mul A u v)) a b.

Definition mul_over {T} (A : Arith T) (a b : list (list T)) : option (list (list T)) :=
  broadcast (mul_row_over A) a b.

(** [DistMult] with the arithmetic of the tensors as a parameter: the
    same three index selections, the same two products in the same
    order, the sum of each row, the sigmoid. *)
Definition DistMult_over {T} (A : Arith T) (embed : list (list T))
    (edge_index : EdgeIndex) (edge_type : list Z) (w_rels : list (list T))
  : option (list T) :=
  s <-? index_select embed (map fst edge_index) ;;
  o <-? index_select embed (map snd edge_index) ;;
  r <-? index_select w_rels edge_type ;;
  sr <-? mul_over A s r ;;
  sro <-? mul_over A sr o ;;
  let scores := map (a_sum A) sro in
  Some (map (a_sigmoid A) scores).

(** The arithmetic of the real-valued model. *)
Definition real_arith : Arith R := mkArith Rmult sum_list sigmoid.

(** Single precision, the dtype of the notebook's tensors: IEEE 754
    binary32, 24 bits of precision and exponents below 128.  The product
    is the correctly rounded one; the sum of a row and the sigmoid are
    the library's. *)
Definition float32 : Type := spec_float.

Definition f32_mul : float32 -> float32 -> float32 := SFmul 24 128.

Definition float32_arith (sum32 : list float32 -> float32)
    (sigmoid32 : float32 -> float32) : Arith float32 :=
  mkArith f32_mul sum32 sigmoid32.

(** [F.binary_cross_entropy(probs, labels)], mean reduction; the library
    clamps each logarithm at -100.  Shapes must agree.  (On an empty
    tensor the float mean is NaN, which the reals do not have.) *)
Definition bce_term (p y : R) : R :=
  (- (y * Rmax (ln p) (-100) + (1 - y) * Rmax (ln (1 - p)) (-100)))%R.

Definition binary_cross_entropy (probs labels : list R) : option R :=
  if length probs =? length labels
  then Some (sum_list (map (fun py => bce_term (fst py) (snd py)) (combine probs labels))
             / INR (length probs))%R
  else None.

Definition get_metrics (model : RGCN) (embed : Matrix) (edge_index : EdgeIndex)
    (edge_type : list Z) (labels : list R) : option (R * list R * list R) :=
  probs <-? DistMult embed edge_index edge_type model ;;
  loss <-? binary_cross_entropy probs labels ;;
  Some (loss, probs, labels).

(** ** Slices, masks and labels *)

(** The stop position of the Python slice [[:k]] on a sequence of length
    [len]. *)
Definition slice_stop (len : nat) (k : Z) : nat :=
  if (k <? 0)%Z then Z.to_nat (Z.of_nat len + k) else Nat.min (Z.to_nat k) len.

Definition slice_to {A} (l : list A) (k : Z) : list A :=
  firstn (slice_stop (length l) k) l.

(** [l[:k] = v] *)
Definition assign_slice_to {A} (l : list A) (k : Z) (v : A) : list A :=
  repeat v (slice_stop (length l) k) ++ skipn (slice_stop (length l) k) l.

(** [torch.zeros(n)]: a negative size raises. *)
Definition zeros (n : Z) : option (list R) :=
  if (n <? 0)%Z then None else Some (repeat 0%R (Z.to_nat n)).

Definition get_link_labels (edge_index_pos_len edge_index_neg_len : Z) : option (list R) :=
  link_labels <-? zeros (edge_index_pos_len + edge_index_neg_len) ;;
  let link_labels := assign_slice_to link_labels edge_index_pos_len 1%R in
  Some link_labels.

(** [t[mask]] (and [t[:, mask]] on the columns of an edge index) for a
    boolean mask: the mask must be as long as the indexed dimension. *)
Definition masked_select {A} (t : list A) (mask : list bool) : option (list A) :=
  if length t =? length mask
  then Some (map fst (filter snd (combine t mask)))
  else None.

Definition squeeze (column : list Z) : IntTensor :=
  match column with
  | [z] => Scalar z
  | _ => Vector column
  end.

(** [t.size(1)] of an edge index: its number of columns. *)
Definition size1 (t : EdgeIndex) : Z := Z.of_nat (length t).

(** [torch.cat([edge_type, edge_type[:k]], dim=-1)]: a 0-dim tensor can
    be neither sliced nor concatenated. *)
Definition cat_with_prefix (edge_type : IntTensor) (k : Z) : option (list Z) :=
  match edge_type with
  | Scalar _ => None
  | Vector l => Some (l ++ slice_to l k)
  end.

(** [mask.sum()] *)
Definition mask_sum (mask : list bool) : nat := length (filter (fun b => b) mask).

(** [edge_type.unique()]: the distinct values in increasing order. *)
Fixpoint insert_unique (z : Z) (l : list Z) : list Z :=
  match l with
  | [] => [z]
  | y :: l' =>
      if (z <? y)%Z then z :: l
      else if (z =? y)%Z then l
      else y :: insert_unique z l'
  end.

Definition unique (l : list Z) : list Z := fold_right insert_unique [] l.

(** ** The graph *)

Record Data : Type := mkData {
  edge_attr : list R;
  edge_index : EdgeIndex;
  edge_type : list Z;          (* shape [M, 1] *)
  test_mask : list bool;
  train_mask : list bool;
  val_mask : list bool;
  x : Matrix;
  y : list Z
}.

(** The subgraph sampler built over the graph,
    [GraphSAINTRandomWalkSampler(data, batch_size, walk_length, num_steps)];
    the sampling itself is library code. *)
Record Loader : Type := mkLoader {
  graph : Data;
  batch_size : nat;
  walk_length : nat;
  num_steps : nat
}.

(** ** Library calls as events *)

(** What the notebook asks of the libraries.  The environment answers
    each request; an answer of [None] is an exception raised inside the
    library. *)
Inductive Ext : Type -> Type :=
| negative_sampling (edge_index : EdgeIndex) (num_neg_samples : Z) : Ext EdgeIndex
| roc_auc_score (y_true y_score : list R) : Ext R
| average_precision_score (y_true y_score : list R) : Ext R
| backward (loss : R) : Ext unit
| optimizer_step (model : RGCN) : Ext RGCN
| FastRGCNConv (in_channels out_channels num_relations : nat) : Ext Conv
| xavier_uniform (fan_in fan_out : nat) (gain : R) : Ext (nat -> nat -> R)
| iterate (loader : Loader) : Ext (list Data).

Inductive Prog (B : Type) : Type :=
| Ret (b : B)
| Vis (X : Type) (e : Ext X) (k : option X -> Prog B).

Arguments Ret {B} b.
Arguments Vis {B X} e k.

Fixpoint pbind {B C} (p : Prog B) (f : B -> Prog C) : Prog C :=
  match p with
  | Ret b => f b
  | Vis e k => Vis e (fun a => pbind (k a) f)
  end.

(** An environment, and the run of a program in it. *)
Definition Env := forall X, Ext X -> option X.

Fixpoint run {B} (env : Env) (p : Prog B) : B :=
  match p with
  | Ret b => b
  | Vis e k => run env (k (env _ e))
  end.

(** ** The notebook's globals and its steps *)

Record World : Type := mkWorld {
  num_relations : nat;
  model : RGCN;
  data_loader : Loader;
  loss_epoch_train : list R;
  auroc_epoch_train : list R;
  loss_epoch_val : list R;
  auroc_epoch_val : list R;
  auroc_edge_type : list (nat * list R)     (* a dict, in insertion order *)
}.

Inductive Outcome (A : Type) : Type :=
| Normal (a : A)
| Raised.

Arguments Normal {A} a.
Arguments Raised {A}.

Definition M (A : Type) : Type := World -> Prog (Outcome A * World).

Definition ret {A} (a : A) : M A := fun w => Ret (Normal a, w).

Definition raise {A} : M A := fun w => Ret (Raised, w).

Definition bind {A B} (m : M A) (f : A -> M B) : M B :=
  fun w => pbind (m w) (fun r =>
    match fst r with
    | Normal a => f a (snd r)
    | Raised => Ret (Raised, snd r)
    end).

Definition lift {A} (o : option A) : M A :=
  match o with
  | Some a => ret a
  | None => raise
  end.

Definition call {X} (e : Ext X) : M X :=
  fun w => Vis e (fun a => lift a w).

Definition gets {A} (f : World -> A) : M A := fun w => Ret (Normal (f w), w).

Definition modify (f : World -> World) : M unit := fun w => Ret (Normal tt, f w).

Notation "x <- c ;; k" := (bind c (fun x => k))
  (at level 61, c at next level, right associativity).
Notation "c ;;; k" := (bind c (fun _ => k))
  (at level 61, right associativity).

Definition set_model (m : RGCN) (w : World) : World :=
  mkWorld (num_relations w) m (data_loader w)
          (loss_epoch_train w) (auroc_epoch_train w)
          (loss_epoch_val w) (auroc_epoch_val w) (auroc_edge_type w).

Definition set_num_relations (n : nat) (w : World) : World :=
  mkWorld n (model w) (data_loader w)
          (loss_epoch_train w) (auroc_epoch_train w)
          (loss_epoch_val w) (auroc_epoch_val w) (auroc_edge_type w).

Definition set_data_loader (l : Loader) (w : World) : World :=
  mkWorld (num_relations w) (model w) l
          (loss_epoch_train w) (auroc_epoch_train w)
          (loss_epoch_val w) (auroc_epoch_val w) (auroc_edge_type w).

Definition append_loss_epoch_train (v : R) (w : World) : World :=
  mkWorld (num_relations w) (model w) (data_loader w)
          (loss_epoch_train w ++ [v]) (auroc_epoch_train w)
          (loss_epoch_val w) (auroc_epoch_val w) (auroc_edge_type w).

Definition append_auroc_epoch_train (v : R) (w : World) : World :=
  mkWorld (num_relations w) (model w) (data_loader w)
          (loss_epoch_train w) (auroc_epoch_train w ++ [v])
          (loss_epoch_val w) (auroc_epoch_val w) (auroc_edge_type w).

Definition append_loss_epoch_val (v : R) (w : World) : World :=
  mkWorld (num_relations w) (model w) (data_loader w)
          (loss_epoch_train w) (auroc_epoch_train w)
          (loss_epoch_val w ++ [v]) (auroc_epoch_val w) (auroc_edge_type w).

Definition append_auroc_epoch_val (v : R) (w : World) : World :=
  mkWorld (num_relations w) (model w) (data_loader w)
          (loss_epoch_train w) (auroc_epoch_train w)
          (loss_epoch_val w) (auroc_epoch_val w ++ [v]) (auroc_edge_type w).

Definition set_auroc_edge_type (d : list (nat * list R)) (w : World) : World :=
  mkWorld (num_relations w) (model w) (data_loader w)
          (loss_epoch_train w) (auroc_epoch_train w)
          (loss_epoch_val w) (auroc_epoch_val w) d.

(** [d[key].append(v)]: a missing key raises KeyError. *)
Fixpoint dict_append (d : list (nat * list R)) (key : nat) (v : R)
  : option (list (nat * list R)) :=
  match d with
  | [] => None
  | (k, vs) :: d' =>
      if k =? key then Some ((k, vs ++ [v]) :: d')
      else match dict_append d' key v with
           | Some d'' => Some ((k, vs) :: d'')
           | None => None
           end
  end.

Fixpoint dict_get (d : list (nat * list R)) (key : nat) : option (list R) :=
  match d with
  | [] => None
  | (k, vs) :: d' => if k =? key then Some vs else dict_get d' key
  end.

Definition get_embeddings (data : Data) : M Matrix :=
  let x := x data in
  let edge_index_pos := edge_index data in
  let edge_type := squeeze (edge_type data) in
  model <- gets model ;;
  embed <- lift (forward model x edge_index_pos edge_type) ;;
  ret embed.

Definition train (data : Data) (embed : Matrix) : M unit :=
  edge_index_train_pos <- lift (masked_select (edge_index data) (train_mask data)) ;;
  edge_type_train <- lift (option_map squeeze
                             (masked_select (edge_type data) (train_mask data))) ;;
  edge_index_train_neg <- call (negative_sampling edge_index_train_pos
                                  (size1 edge_index_train_pos)) ;;
  let edge_index_train_total := edge_index_train_pos ++ edge_index_train_neg in
  edge_type_train_total <- lift (cat_with_prefix edge_type_train
                                   (size1 edge_index_train_neg)) ;;
  link_labels <- lift (get_link_labels (size1 edge_index_train_pos)
                         (size1 edge_index_train_neg)) ;;
  model <- gets model ;;
  r <- lift (get_metrics model embed edge_index_train_total edge_type_train_total
               link_labels) ;;
  let '(loss, probs, labels) := r in
  auroc <- call (roc_auc_score labels probs) ;;
  auprc <- call (average_precision_score labels probs) ;;
  modify (append_loss_epoch_train loss) ;;;
  modify (append_auroc_epoch_train auroc) ;;;
  call (backward loss) ;;;
  model' <- call (optimizer_step model) ;;
  modify (set_model model').

(** The loop [for i in range(num_relations)] at the end of
    [validation], over the relation indices still to visit. *)
Fixpoint per_relation (rels : list nat) (edge_type_val_total : list Z)
    (probs labels : list R) : M unit :=
  match rels with
  | [] => ret tt
  | i :: rels' =>
      let mask := map (fun t => (t =? Z.of_nat i)%Z) edge_type_val_total in
      if mask_sum mask =? 0
      then per_relation rels' edge_type_val_total probs labels
      else
        probs_per_rel <- lift (masked_select probs mask) ;;
        labels_per_rel <- lift (masked_select labels mask) ;;
        auroc_per_rel <- call (roc_auc_score labels_per_rel probs_per_rel) ;;
        d <- gets auroc_edge_type ;;
        d' <- lift (dict_append d i auroc_per_rel) ;;
        modify (set_auroc_edge_type d') ;;;
        per_relation rels' edge_type_val_total probs labels
  end.

Definition validation (data : Data) (embed : Matrix) (evaluate_rel : bool) : M unit :=
  edge_index_val_pos <- lift (masked_select (edge_index data) (val_mask data)) ;;
  edge_type_val <- lift (option_map squeeze
                           (masked_select (edge_type data) (val_mask data))) ;;
  edge_index_val_neg <- call (negative_sampling edge_index_val_pos
                                (size1 edge_index_val_pos)) ;;
  let edge_index_val_total := edge_index_val_pos ++ edge_index_val_neg in
  edge_type_val_total <- lift (cat_with_prefix edge_type_val
                                 (size1 edge_index_val_neg)) ;;
  link_labels <- lift (get_link_labels (size1 edge_index_val_pos)
                         (size1 edge_index_val_neg)) ;;
  model <- gets model ;;
  r <- lift (get_metrics model embed edge_index_val_total edge_type_val_total
               link_labels) ;;
  let '(loss, probs, labels) := r in
  auroc <- call (roc_auc_score labels probs) ;;
  auprc <- call (average_precision_score labels probs) ;;
  modify (append_loss_epoch_val loss) ;;;
  modify (append_auroc_epoch_val auroc) ;;;
  if negb evaluate_rel then ret tt
  else
    num_relations <- gets num_relations ;;
    per_relation (seq 0 num_relations) edge_type_val_total probs labels.

(** The reporting cell: a fresh dict, then one validation with
    [evaluate_rel=True] per batch of one pass over [data_loader]. *)
Fixpoint report_batches (batches : list Data) : M unit :=
  match batches with
  | [] => ret tt
  | batch :: batches' =>
      embed <- get_embeddings batch ;;
      validation batch embed true ;;;
      report_batches batches'
  end.

Definition report : M unit :=
  num_relations <- gets num_relations ;;
  modify (set_auroc_edge_type (map (fun rel => (rel, [])) (seq 0 num_relations))) ;;;
  data_loader <- gets data_loader ;;
  batches <- call (iterate data_loader) ;;
  report_batches batches.

(** ** Construction of the model *)

(** [torch.Tensor(rows, cols)]: a tensor of that shape whose content is
    not initialised. *)
Definition Tensor (rows cols : nat) : Matrix := repeat (repeat 0%R cols) rows.

(** An in-place fill: every entry is replaced, the shape stays. *)
Definition fill (values : nat -> nat -> R) (t : Matrix) : Matrix :=
  map (fun ir => map (fun jv => values (fst ir) (fst jv))
                     (combine (seq 0 (length (snd ir))) (snd ir)))
      (combine (seq 0 (length t)) t).

(** [nn.init.xavier_uniform_(t, gain)] on a 2-D tensor: fan_in is
    [t.size(1)], fan_out is [t.size(0)]. *)
Definition xavier_uniform_ (t : Matrix) (gain : R) : M Matrix :=
  values <- call (xavier_uniform (length (hd [] t)) (length t) gain) ;;
  ret (fill values t).

Definition calculate_gain_relu : R := sqrt 2.

Definition RGCN_init (in_dim h_dim out_dim num_rels : nat) : M RGCN :=
  conv1 <- call (FastRGCNConv in_dim h_dim num_rels) ;;
  conv2 <- call (FastRGCNConv h_dim out_dim num_rels) ;;
  w_rels <- xavier_uniform_ (Tensor num_rels out_dim) calculate_gain_relu ;;
  ret (mkRGCN num_rels conv1 conv2 w_rels).

(** The data cell: [num_relations = edge_type.unique().size(0)]. *)
Definition load_num_relations (data : Data) : M unit :=
  modify (set_num_relations (length (unique (edge_type data)))).

(** The cell that builds the loader over the graph. *)
Definition create_data_loader (data : Data) : M unit :=
  modify (set_data_loader (mkLoader data 128 16 32)).

(** The cells that set [params] and build the model. *)
Definition create_model : M unit :=
  num_relations <- gets num_relations ;;
  let in_dim := 128 in
  let h_dim := 64 in
  let out_dim := 64 in
  let num_rels := num_relations in
  model <- RGCN_init in_dim h_dim out_dim num_rels ;;
  modify (set_model model).

(** ** Properties of programs *)

(** Every library call the program can make, whatever the answers,
    satisfies [P]. *)
Inductive AllCalls (P : forall X, Ext X -> Prop) {B} : Prog B -> Prop :=
| AllCalls_Ret (b : B) : AllCalls P (Ret b)
| AllCalls_Vis X (e : Ext X) (k : option X -> Prog B) :
    P X e -> (forall a, AllCalls P (k a)) -> AllCalls P (Vis e k).

(** Every result the program can end with, whatever the answers,
    satisfies [Q]. *)
Inductive Leaves {B} (Q : B -> Prop) : Prog B -> Prop :=
| Leaves_Ret (b : B) : Q b -> Leaves Q (Ret b)
| Leaves_Vis X (e : Ext X) (k : option X -> Prog B) :
    (forall a, Leaves Q (k a)) -> Leaves Q (Vis e k).

(** The sampling requests of one run, each with the number of edges
    asked for and the edges answered. *)
Fixpoint sampling_log {B} (env : Env) (p : Prog B)
  : list (EdgeIndex * Z * option EdgeIndex) :=
  match p with
  | Ret _ => []
  | Vis e k =>
      match e in Ext X return option X -> _ with
      | negative_sampling ei n => fun a => [(ei, n, a)]
      | _ => fun _ => []
      end (env _ e) ++ sampling_log env (k (env _ e))
  end.

(** The arguments of the AUROC calls of one run, in order. *)
Fixpoint auroc_log {B} (env : Env) (p : Prog B) : list (list R * list R) :=
  match p with
  | Ret _ => []
  | Vis e k =>
      match e with
      | roc_auc_score y_true y_score => [(y_true, y_score)]
      | _ => []
      end ++ auroc_log env (k (env _ e))
  end.

(** ** A reference environment *)

(** The number of nodes an edge index spans: its largest endpoint plus
    one. *)
Definition num_nodes_of (ei : EdgeIndex) : Z :=
  fold_right (fun e m => Z.max (Z.max (fst e) (snd e) + 1) m) 0%Z ei.

(** Modelled from the spec: the negative-sampling utility (library code,
    not part of the notebook) generates non-existent edges: every edge it
    answers joins two nodes of the given edge index and is not one of its
    edges. *)
Definition non_existent_edges (ei neg : EdgeIndex) : Prop :=
  Forall (fun e => ~ In e ei
                   /\ (0 <= fst e < num_nodes_of ei)%Z
                   /\ (0 <= snd e < num_nodes_of ei)%Z) neg.

Definition is_edge (ei : EdgeIndex) (e : Z * Z) : bool :=
  existsb (fun e' => (fst e =? fst e')%Z && (snd e =? snd e')%Z) ei.

Definition node_pairs (n : Z) : EdgeIndex :=
  list_prod (map Z.of_nat (seq 0 (Z.to_nat n)))
            (map Z.of_nat (seq 0 (Z.to_nat n))).

(** A sampler without repetition: the first [k] non-edges in row-major
    order, fewer when the graph has fewer. *)
Definition first_non_edges (ei : EdgeIndex) (k : Z) : EdgeIndex :=
  firstn (Z.to_nat k)
         (filter (fun e => negb (is_edge ei e)) (node_pairs (num_nodes_of ei))).

(** The answers of the libraries, one function per kind of call. *)
Record Library : Type := mkLibrary {
  sampler : EdgeIndex -> Z -> option EdgeIndex;
  auroc : list R -> list R -> option R;
  auprc : list R -> list R -> option R;
  step : RGCN -> option RGCN;
  new_conv : nat -> nat -> nat -> option Conv;
  draws : nat -> nat -> R -> option (nat -> nat -> R);
  batches : Loader -> option (list Data)
}.

Definition env_of (lib : Library) : Env :=
  fun X (e : Ext X) =>
    match e in Ext X return option X with
    | negative_sampling ei n => sampler lib ei n
    | roc_auc_score yt ys => auroc lib yt ys
    | average_precision_score yt ys => auprc lib yt ys
    | backward _ => Some tt
    | optimizer_step m => step lib m
    | FastRGCNConv i o r => new_conv lib i o r
    | xavier_uniform fi fo g => draws lib fi fo g
    | iterate loader => batches lib loader
    end.

(** A layer that hands its input features on (root weight the identity,
    relation weights and bias zero). *)
Definition pass_through : Conv := fun x _ _ => Some x.

(** The environment of the example runs: the sampler above, metrics
    that answer a fixed value, an optimizer that keeps the model, and a
    loader whose pass is the given list of subgraphs. *)
Definition reference_library (loader : list Data) : Library :=
  mkLibrary (fun ei n => Some (first_non_edges ei n))
            (fun _ _ => Some (1 / 2)%R)
            (fun _ _ => Some (1 / 2)%R)
            (fun m => Some m)
            (fun _ _ _ => Some pass_through)
            (fun _ _ _ => Some (fun _ _ => 0%R))
            (fun _ => Some loader).

(** ** Specification vocabulary *)

Definition in_range (len : nat) (i : Z) : Prop :=
  (- Z.of_nat len <= i < Z.of_nat len)%Z.

Definition has_shape (t : Matrix) (rows cols : nat) : Prop :=
  length t = rows /\ Forall (fun row => length row = cols) t.

(** [t[i][d]] with Python indexing of the row. *)
Definition entry (t : Matrix) (i : Z) (d : nat) : R :=
  match py_get t i with
  | Some row => nth d row 0%R
  | None => 0%R
  end.

(** The DistMult score of the edge (s, o) under relation r, as the spec
    words it: the sum over the embedding dimensions of
    embed[s][d] * w_rels[r][d] * embed[o][d]. *)
Definition distmult_score (embed w : Matrix) (dims : nat) (s o r : Z) : R :=
  sum_list (map (fun d => (entry embed s d * entry w r d * entry embed o d)%R)
                (seq 0 dims)).

(** The entrywise product of two rows of equal length. *)
Definition zip_mul (a b : list R) : list R :=
  map (fun q => (fst q * snd q)%R) (combine a b).

(** The encoder as the spec words it: the second convolution applied to
    the ReLU of the first, and nothing else. *)
Definition two_convolutions (self : RGCN) (x : Matrix) (edge_index : EdgeIndex)
    (edge_type : IntTensor) : option Matrix :=
  x1 <-? conv1 self x edge_index edge_type ;;
  conv2 self (relu x1) edge_index edge_type.

(** A step leaves the part [f] of the globals alone: in whatever state
    it starts and whatever the libraries answer, it ends (normally or by
    an exception) with the value of [f] it started with. *)
Definition preserves {A T} (f : World -> T) (m : M A) : Prop :=
  forall w, Leaves (fun r => f (snd r) = f w) (m w).

(** What a library call of the per-relation loop over [rels] may be: an
    AUROC call on the labels and probabilities selected for one relation
    [i] of [rels] that at least one edge has, the selection not empty. *)
Definition per_relation_call (rels : list nat) (edge_types : list Z)
    (probs labels : list R) : forall X, Ext X -> Prop :=
  fun X e =>
    match e with
    | roc_auc_score y_true y_score =>
        exists i,
          In i rels
          /\ In (Z.of_nat i) edge_types
          /\ masked_select labels (map (fun t => (t =? Z.of_nat i)%Z) edge_types)
             = Some y_true
          /\ masked_select probs (map (fun t => (t =? Z.of_nat i)%Z) edge_types)
             = Some y_score
          /\ y_true <> [] /\ y_score <> []
    | _ => False
    end.

(** The shape of a tensor over any scalar type. *)
Definition shape_over {T} (t : list (list T)) (rows cols : nat) : Prop :=
  length t = rows /\ Forall (fun row => length row = cols) t.

(** The entrywise product of two rows over an arithmetic. *)
Definition zip_mul_over {T} (A : Arith T) (a b : list T) : list T :=
  map (fun q => a_mul A (fst q) (snd q)) (combine a b).

(** The score of an edge from the rows of its subject, its relation and
    its object: the sum over the dimensions d of
    (es[d] * er[d]) * eo[d], the products taken in this order. *)
Definition score_over {T} (A : Arith T) (es er eo : list T) : T :=
  a_sum A (zip_mul_over A (zip_mul_over A es er) eo).

(** Every endpoint of every edge addresses one of [nodes] rows. *)
Definition in_nodes (nodes : nat) (ei : EdgeIndex) : Prop :=
  Forall (fun e => in_range nodes (fst e) /\ in_range nodes (snd e)) ei.

(** One label 1 per positive edge, then one label 0 per negative edge. *)
Definition link_labels_of (pos neg : EdgeIndex) : list R :=
  repeat 1%R (length pos) ++ repeat 0%R (length neg).

(** What one training or validation step [p], started in the state
    [w], does with the positive edges [pos] of types [tys]: it first
    asks the sampler for as many negative edges as [pos] has columns.
    Whichever edges [neg] the sampler answers, on [nodes] nodes and no
    more than asked for, the decoder answers probabilities [probs] for
    the edges [pos ++ neg] under the types [tys ++ tys[:len(neg)]],
    which satisfy [Q neg].  When the loss function accepts them against
    the labels of [pos ++ neg], the step goes on to hand these labels
    and probabilities to [roc_auc_score] and, once that has answered, to
    [average_precision_score]; when it does not, the step raises with
    nothing changed. *)
Definition scores_sampled (p : Prog (Outcome unit * World)) (w : World)
    (embed : Matrix) (nodes : nat) (pos : EdgeIndex) (tys : list Z)
    (Q : EdgeIndex -> list R -> Prop) : Prop :=
  exists k,
    p = Vis (negative_sampling pos (size1 pos)) k
    /\ forall neg,
        in_nodes nodes neg -> length neg <= length pos ->
        exists probs,
          DistMult embed (pos ++ neg) (tys ++ firstn (length neg) tys) (model w)
          = Some probs
          /\ Q neg probs
          /\ match binary_cross_entropy probs (link_labels_of pos neg) with
             | Some _ =>
                 exists k1,
                   k (Some neg) = Vis (roc_auc_score (link_labels_of pos neg) probs) k1
                   /\ forall a,
                       exists k2,
                         k1 (Some a)
                         = Vis (average_precision_score (link_labels_of pos neg) probs)
                               k2
             | None => k (Some neg) = Ret (Raised, w)
             end.

(** The number of entries of a label vector that are 1. *)
Definition count_ones (labels : list R) : nat := count_occ Req_dec_T labels 1%R.

(** A step of either kind, on the split its mask selects. *)
Definition step_mask (validating : bool) (data : Data) : list bool :=
  if validating then val_mask data else train_mask data.

Definition one_step (validating : bool) (data : Data) (embed : Matrix)
    (evaluate_rel : bool) : M unit :=
  if validating then validation data embed evaluate_rel else train data embed.

(** The batch a step scores holds one probability and one label per
    edge, the labels 1 being as many as the positive edges; it is
    balanced when the sampler answered as many edges as the step asked
    for. *)
Definition one_label_per_edge (pos neg : EdgeIndex) (probs : list R) : Prop :=
  length probs = length pos + length neg
  /\ length (link_labels_of pos neg) = length pos + length neg
  /\ count_ones (link_labels_of pos neg) = length pos
  /\ (length neg = length pos ->
      length (link_labels_of pos neg) = 2 * count_ones (link_labels_of pos neg)).

(** The probabilities of the batch a step scores: one per edge of
    [pos ++ neg], the k-th from the rows the k-th edge and the k-th type
    of [tys ++ tys[:len(neg)]] address. *)
Definition scored_rows (embed : Matrix) (m : RGCN) (pos : EdgeIndex) (tys : list Z)
    (neg : EdgeIndex) (probs : list R) : Prop :=
  length probs = length pos + length neg
  /\ forall k s o t,
      nth_error (pos ++ neg) k = Some (s, o) ->
      nth_error (tys ++ firstn (length neg) tys) k = Some t ->
      exists es er eo,
        py_get embed s = Some es /\ py_get (w_rels m) t = Some er
        /\ py_get embed o = Some eo
        /\ nth_error probs k = Some (sigmoid (score_over real_arith es er eo)).

(** The j-th negative edge (s, o) is scored under the type t of the j-th
    positive edge: its probability, at position len(pos) + j, is the
    sigmoid of the score of the rows embed[s], w_rels[t] and embed[o]. *)
Definition negatives_under_positive_types (embed : Matrix) (m : RGCN)
    (pos : EdgeIndex) (tys : list Z) (neg : EdgeIndex) (probs : list R) : Prop :=
  forall j s o,
    nth_error neg j = Some (s, o) ->
    exists t es er eo,
      nth_error tys j = Some t
      /\ py_get embed s = Some es
      /\ py_get (w_rels m) t = Some er
      /\ py_get embed o = Some eo
      /\ nth_error probs (length pos + j)
         = Some (sigmoid (score_over real_arith es er eo)).

(** What the data cell and the model cell [p] do for [n] relations: they
    ask for a first layer from 128 to 64 features and a second layer
    from 64 to 64 features, both for [n] relations, then for the draws
    that fill a tensor of [n] rows with the ReLU gain; once the three
    calls are answered the cells end normally, in a state that holds the
    two layers answered and satisfies [Q] for the draws answered. *)
Definition builds_model (p : Prog (Outcome unit * World)) (n : nat)
    (Q : (nat -> nat -> R) -> World -> Prop) : Prop :=
  exists k1,
    p = Vis (FastRGCNConv 128 64 n) k1
    /\ forall c1,
        exists k2,
          k1 (Some c1) = Vis (FastRGCNConv 64 64 n) k2
          /\ forall c2,
              exists fan_in k3,
                k2 (Some c2) = Vis (xavier_uniform fan_in n calculate_gain_relu) k3
                /\ forall values,
                    exists w',
                      k3 (Some values) = Ret (Normal tt, w')
                      /\ conv1 (model w') = c1
                      /\ conv2 (model w') = c2
                      /\ Q values w'.

(** Small concrete inputs. *)
Definition example_embed : Matrix := [[1; 2]; [3; 4]]%R.

Definition example_model : RGCN :=
  mkRGCN 1 pass_through pass_through [[1; 1]]%R.

(** A batch of two nodes and three edges, all of them in the training
    and in the validation split: (1, 1) is the only pair of its nodes
    that is not an edge. *)
Definition dense_batch : Data :=
  mkData [] [(0, 0); (0, 1); (1, 0)]%Z [0; 1; 0]%Z
         [false; false; false] [true; true; true] [true; true; true]
         [[0]; [0]]%R [].

(** A graph of four nodes whose four edges are all in the validation
    split, two of relation 0 and two of relation 1, and the subgraph a
    sampler draws on its nodes 0 and 1. *)
Definition whole_graph : Data :=
  mkData [] [(0, 1); (1, 0); (2, 3); (3, 2)]%Z [0; 0; 1; 1]%Z
         [false; false; false; false] [false; false; false; false]
         [true; true; true; true]
         [[0]; [0]; [0]; [0]]%R [].

Definition sampled_subgraph : Data :=
  mkData [] [(0, 1); (1, 0)]%Z [0; 0]%Z
         [false; false] [false; false] [true; true]
         [[0]; [0]]%R [].

Definition toy_model : RGCN :=
  mkRGCN 2 pass_through pass_through [[1]; [1]]%R.

Definition toy_world : World :=
  mkWorld 2 toy_model (mkLoader whole_graph 128 16 32) [] [] [] [] [].

(** Single-precision values: 0, 1 and 2^100 (the significand 2^23 at
    the exponents -23 and 77), and the closed unit interval in the order
    of the floats, which no NaN belongs to. *)
Definition f32_zero : float32 := S754_zero false.

Definition f32_one : float32 := S754_finite false 8388608 (-23).

Definition f32_2p100 : float32 := S754_finite false 8388608 77.

Definition f32_in_unit (v : float32) : Prop :=
  SFleb f32_zero v = true /\ SFleb v f32_one = true.

(** A library whose optimizer replaces the model. *)
Definition stepping_library : Library :=
  mkLibrary (fun ei n => Some (first_non_edges ei n))
            (fun _ _ => Some (1 / 2)%R)
            (fun _ _ => Some (1 / 2)%R)
            (fun _ => Some example_model)
            (fun _ _ _ => Some pass_through)
            (fun _ _ _ => Some (fun _ _ => 0%R))
            (fun _ => Some []).

(** ** Further vocabulary *)

(** How far the loss lists run ahead of the AUROC lists, for the
    training pair and for the validation pair of lists. *)
Definition alignment (w : World) : Z * Z :=
  ((Z.of_nat (length (loss_epoch_train w))
    - Z.of_nat (length (auroc_epoch_train w)))%Z,
   (Z.of_nat (length (loss_epoch_val w))
    - Z.of_nat (length (auroc_epoch_val w)))%Z).

(** The library calls of evaluation: sampling, the two metrics and the
    loader, but neither the backward pass nor the optimizer nor the
    construction of a model. *)
Definition evaluation_call : forall X, Ext X -> Prop :=
  fun X e =>
    match e with
    | negative_sampling _ _ => True
    | roc_auc_score _ _ => True
    | average_precision_score _ _ => True
    | iterate _ => True
    | _ => False
    end.

(** The globals at the start of a reporting loop over three relations. *)
Definition reporting_world : World :=
  set_auroc_edge_type [(0, []); (1, []); (2, [])] toy_world.


(** A graph of two edges, of relation 1 and of relation 0. *)
Definition sampled_pair : Data :=
  mkData [] [(2, 3); (0, 1)]%Z [1; 0]%Z
         [false; false] [false; false] [true; true]
         [[0]; [0]; [0]; [0]]%R [].

(** A graph whose two relation types are 0 and 2. *)
Definition gapped_graph : Data :=
  mkData [] [(0, 1); (1, 0)]%Z [0; 2]%Z
         [false; false] [true; true] [true; true]
         [[0]; [0]]%R [].

(** A batch whose training split and whose validation split hold one
    edge each. *)
Definition single_edge_batch : Data :=
  mkData [] [(0, 1); (1, 0)]%Z [0; 1]%Z
         [false; false] [true; false] [false; true]
         [[0]; [0]]%R [].

(** * Verification *)

(** ** Lists and options *)

Lemma mapM_length A B (f : A -> option B) l l' :
  Opt.mapM f l = Some l' -> length l' = length l.
Proof.
  revert l'; induction l as [|a l IH]; simpl; intros l' H.
  - now inversion H.
  - destruct (f a); [|discriminate].
    destruct (Opt.mapM f l); [|discriminate].
    inversion H; subst; simpl. now rewrite (IH l0).
Qed.

Lemma mapM_nth A B (f : A -> option B) l l' :
  Opt.mapM f l = Some l' ->
  forall k a, nth_error l k = Some a -> option_map Some (f a) = Some (nth_error l' k).
Proof.
  revert l'; induction l as [|a l IH]; simpl; intros l' H k a' Hk.
  - destruct k; discriminate.
  - destruct (f a) eqn:Ea; [|discriminate].
    destruct (Opt.mapM f l) eqn:El; [|discriminate].
    inversion H; subst. destruct k; simpl in *.
    + inversion Hk; subst. now rewrite Ea.
    + eapply IH; eauto.
Qed.

Lemma mapM_Some A B (f : A -> option B) l :
  Forall (fun a => f a <> None) l -> exists l', Opt.mapM f l = Some l'.
Proof.
  induction 1 as [|a l Ha _ (l' & IH)]; simpl.
  - now exists [].
  - destruct (f a) as [b|]; [|congruence]. rewrite IH. now exists (b :: l').
Qed.

Lemma mapM2_total A B C (g : A -> B -> C) la lb :
  Opt.mapM2 (fun a b => Some (g a b)) la lb
  = Some (map (fun p => g (fst p) (snd p)) (combine la lb)).
Proof.
  revert lb; induction la as [|a la IH]; intros [|b lb]; simpl; try reflexivity.
  now rewrite IH.
Qed.

Lemma mapM2_pointwise A B C (f : A -> B -> option C) (g : A -> B -> C) la lb :
  (forall a b, In (a, b) (combine la lb) -> f a b = Some (g a b)) ->
  Opt.mapM2 f la lb = Some (map (fun p => g (fst p) (snd p)) (combine la lb)).
Proof.
  revert lb; induction la as [|a la IH]; intros [|b lb] H; simpl; try reflexivity.
  rewrite (H a b) by (now left). rewrite IH; [reflexivity|].
  intros; apply H; now right.
Qed.

(** ** The decoder *)

Lemma sigmoid_range v : (0 < sigmoid v < 1)%R.
Proof.
  unfold sigmoid. pose proof (exp_pos (- v)) as He.
  split.
  - apply Rdiv_lt_0_compat; lra.
  - apply (Rmult_lt_reg_r (1 + exp (- v))); [lra|].
    unfold Rdiv. rewrite Rmult_assoc, Rinv_l by lra. lra.
Qed.

Lemma py_get_in_range A (t : list A) i :
  in_range (length t) i -> exists a, py_get t i = Some a /\ In a t.
Proof.
  unfold in_range, py_get, norm_index; intros Hi.
  destruct ((0 <=? i) && (i <? Z.of_nat (length t)))%Z eqn:E1.
  - apply andb_prop in E1 as [H0 H1].
    apply Z.leb_le in H0. apply Z.ltb_lt in H1.
    destruct (nth_error t (Z.to_nat i)) eqn:En.
    + exists a; split; [reflexivity|]. eapply nth_error_In; eauto.
    + apply nth_error_None in En. lia.
  - assert (i < 0)%Z as Hneg.
    { apply andb_false_iff in E1 as [H|H];
        [apply Z.leb_gt in H | apply Z.ltb_ge in H]; lia. }
    replace ((- Z.of_nat (length t) <=? i) && (i <? 0))%Z with true.
    2:{ symmetry; apply andb_true_intro; split;
        [apply Z.leb_le | apply Z.ltb_lt]; lia. }
    destruct (nth_error t (Z.to_nat (i + Z.of_nat (length t)))) eqn:En.
    + exists a; split; [reflexivity|]. eapply nth_error_In; eauto.
    + apply nth_error_None in En. lia.
Qed.

Lemma index_select_in_range A (t : list A) idx :
  Forall (in_range (length t)) idx ->
  exists rows, index_select t idx = Some rows
               /\ length rows = length idx
               /\ Forall (fun a => In a t) rows
               /\ forall k i, nth_error idx k = Some i ->
                              nth_error rows k = py_get t i.
Proof.
  intros Hin. unfold index_select.
  destruct (@mapM_Some _ _ (py_get t) idx) as (rows & Hrows).
  { eapply Forall_impl; [|exact Hin]. intros i Hi.
    destruct (py_get_in_range t Hi) as (a & -> & _). discriminate. }
  exists rows. split; [exact Hrows|]. split; [eapply mapM_length; eauto|]. split.
  - apply Forall_forall. intros a Ha.
    apply In_nth_error in Ha as (k & Hk).
    assert (k < length idx) as Hlt.
    { rewrite <- (mapM_length _ _ Hrows). apply nth_error_Some. congruence. }
    destruct (nth_error idx k) as [i|] eqn:Ei; [|apply nth_error_None in Ei; lia].
    pose proof (mapM_nth _ _ Hrows _ Ei) as Hn.
    rewrite Forall_forall in Hin.
    destruct (py_get_in_range t (Hin i (nth_error_In _ _ Ei))) as (a' & Ha' & Hin').
    rewrite Ha' in Hn. simpl in Hn. congruence.
  - intros k i Ei. pose proof (mapM_nth _ _ Hrows _ Ei) as Hn.
    rewrite Forall_forall in Hin.
    destruct (py_get_in_range t (Hin i (nth_error_In _ _ Ei))) as (a' & Ha' & _).
    rewrite Ha' in Hn |- *. simpl in Hn. congruence.
Qed.

Lemma nth_error_combine A B (la : list A) (lb : list B) k a b :
  nth_error la k = Some a -> nth_error lb k = Some b ->
  nth_error (combine la lb) k = Some (a, b).
Proof.
  revert lb k; induction la as [|a' la IH]; intros [|b' lb] [|k]; simpl;
    try discriminate; intros Ha Hb.
  - congruence.
  - now apply IH.
Qed.

Lemma mul_row_same_length a b :
  length a = length b -> mul_row a b = Some (zip_mul a b).
Proof.
  intros H. unfold mul_row, broadcast. rewrite H, Nat.eqb_refl.
  apply mapM2_total.
Qed.

Lemma mul_same_shape a b n d :
  has_shape a n d -> has_shape b n d ->
  mul a b = Some (map (fun p => zip_mul (fst p) (snd p)) (combine a b)).
Proof.
  intros [Ha Hra] [Hb Hrb]. unfold mul, broadcast.
  rewrite Ha, Hb, Nat.eqb_refl.
  apply mapM2_pointwise. intros ra rb Hin.
  apply mul_row_same_length.
  rewrite Forall_forall in Hra, Hrb.
  rewrite (Hra ra), (Hrb rb); eauto using in_combine_l, in_combine_r.
Qed.

Lemma zip_mul_length a b d :
  length a = d -> length b = d -> length (zip_mul a b) = d.
Proof.
  intros Ha Hb. unfold zip_mul.
  rewrite length_map, length_combine. lia.
Qed.

Lemma zip_mul_shape a b n d :
  has_shape a n d -> has_shape b n d ->
  has_shape (map (fun p => zip_mul (fst p) (snd p)) (combine a b)) n d.
Proof.
  intros [Ha Hra] [Hb Hrb]. split.
  - rewrite length_map, length_combine. lia.
  - rewrite Forall_forall in *. intros row Hrow.
    apply in_map_iff in Hrow as ([ra rb] & <- & Hin). simpl.
    apply zip_mul_length; eauto using in_combine_l, in_combine_r.
Qed.

Lemma triple_sum es er eo d :
  length es = d -> length er = d -> length eo = d ->
  sum_list (zip_mul (zip_mul es er) eo)
  = sum_list (map (fun j => (nth j es 0 * nth j er 0 * nth j eo 0)%R) (seq 0 d)).
Proof.
  revert er eo d.
  induction es as [|u es IH]; intros [|v er] [|t eo] d Hs Hr Ho;
    simpl in Hs, Hr, Ho; subst d; try discriminate; try reflexivity.
  cbn [seq map zip_mul combine sum_list fold_right fst snd].
  rewrite <- seq_shift, map_map. f_equal.
  apply IH; lia.
Qed.

Lemma rows_of_shape (t rows : Matrix) n d e :
  has_shape t n d -> length rows = e -> Forall (fun a => In a t) rows ->
  has_shape rows e d.
Proof.
  intros [_ Ht] Hl Hin. split; [exact Hl|].
  rewrite Forall_forall in *. intros row Hrow. apply Ht, Hin, Hrow.
Qed.

Lemma entry_row (t : Matrix) i row d :
  py_get t i = Some row -> entry t i d = nth d row 0%R.
Proof. unfold entry. now intros ->. Qed.

(** *** Over any arithmetic *)

Lemma mul_row_over_same_length T (A : Arith T) (a b : list T) :
  length a = length b -> mul_row_over A a b = Some (zip_mul_over A a b).
Proof.
  intros H. unfold mul_row_over, broadcast. rewrite H, Nat.eqb_refl.
  apply mapM2_total.
Qed.

Lemma mul_over_same_shape T (A : Arith T) (a b : list (list T)) n d :
  shape_over a n d -> shape_over b n d ->
  mul_over A a b = Some (map (fun p => zip_mul_over A (fst p) (snd p)) (combine a b)).
Proof.
  intros [Ha Hra] [Hb Hrb]. unfold mul_over, broadcast.
  rewrite Ha, Hb, Nat.eqb_refl.
  apply mapM2_pointwise. intros ra rb Hin.
  apply mul_row_over_same_length.
  rewrite Forall_forall in Hra, Hrb.
  rewrite (Hra ra), (Hrb rb); eauto using in_combine_l, in_combine_r.
Qed.

Lemma zip_mul_over_shape T (A : Arith T) (a b : list (list T)) n d :
  shape_over a n d -> shape_over b n d ->
  shape_over (map (fun p => zip_mul_over A (fst p) (snd p)) (combine a b)) n d.
Proof.
  intros [Ha Hra] [Hb Hrb]. split.
  - rewrite length_map, length_combine. lia.
  - rewrite Forall_forall in *. intros row Hrow.
    apply in_map_iff in Hrow as ([ra rb] & <- & Hin). simpl.
    unfold zip_mul_over. rewrite length_map, length_combine.
    rewrite (Hra ra), (Hrb rb); eauto using in_combine_l, in_combine_r. lia.
Qed.

Lemma rows_over_shape T (t rows : list (list T)) n d e :
  shape_over t n d -> length rows = e -> Forall (fun a => In a t) rows ->
  shape_over rows e d.
Proof.
  intros [_ Ht] Hl Hin. split; [exact Hl|].
  rewrite Forall_forall in *. intros row Hrow. apply Ht, Hin, Hrow.
Qed.

(** The decoder answers on well-shaped tensors and in-range indices, one
    value per edge, computed from the three rows the edge addresses. *)
Lemma DistMult_over_entries T (A : Arith T) (embed : list (list T))
    (edge_index : EdgeIndex) (edge_type : list Z) (w_rels : list (list T))
    (nodes dims rels : nat) :
  shape_over embed nodes dims ->
  shape_over w_rels rels dims ->
  length edge_type = length edge_index ->
  in_nodes nodes edge_index ->
  Forall (in_range rels) edge_type ->
  exists probs,
    DistMult_over A embed edge_index edge_type w_rels = Some probs
    /\ length probs = length edge_index
    /\ forall k s o r,
        nth_error edge_index k = Some (s, o) ->
        nth_error edge_type k = Some r ->
        exists es er eo,
          py_get embed s = Some es /\ py_get w_rels r = Some er
          /\ py_get embed o = Some eo
          /\ length es = dims /\ length er = dims /\ length eo = dims
          /\ nth_error probs k = Some (a_sigmoid A (score_over A es er eo)).
Proof.
  intros Hemb Hw Hlen Hedges Htypes.
  pose proof Hemb as [Hn _]. pose proof Hw as [Hr _].
  destruct (@index_select_in_range _ embed (map fst edge_index))
    as (s & Hs & Hsl & Hsin & Hsn).
  { rewrite Hn. apply Forall_map. eapply Forall_impl; [|exact Hedges]. now intros e []. }
  destruct (@index_select_in_range _ embed (map snd edge_index))
    as (o & Ho & Hol & Hoin & Hon).
  { rewrite Hn. apply Forall_map. eapply Forall_impl; [|exact Hedges]. now intros e []. }
  destruct (@index_select_in_range _ w_rels edge_type)
    as (r & Hrr & Hrl & Hrin & Hrn).
  { now rewrite Hr. }
  rewrite length_map in Hsl, Hol.
  set (E := length edge_index) in *.
  assert (shape_over s E dims) as Ss by exact (rows_over_shape Hemb Hsl Hsin).
  assert (shape_over o E dims) as So by exact (rows_over_shape Hemb Hol Hoin).
  assert (shape_over r E dims) as Sr.
  { refine (rows_over_shape Hw _ Hrin). subst E. congruence. }
  pose proof (zip_mul_over_shape A Ss Sr) as Ssr.
  unfold DistMult_over. rewrite Hs, Ho, Hrr. simpl.
  rewrite (mul_over_same_shape A Ss Sr). simpl.
  rewrite (mul_over_same_shape A Ssr So). simpl.
  eexists; split; [reflexivity|]. split.
  - destruct (zip_mul_over_shape A Ssr So) as [Hl _].
    rewrite length_map, length_map. exact Hl.
  - intros k es eo er Hk Ht.
    assert (nth_error (map fst edge_index) k = Some es) as Hks
      by (rewrite nth_error_map, Hk; reflexivity).
    assert (nth_error (map snd edge_index) k = Some eo) as Hko
      by (rewrite nth_error_map, Hk; reflexivity).
    apply Hsn in Hks. apply Hon in Hko. apply Hrn in Ht.
    assert (k < E) as Hkl by (apply nth_error_Some; congruence).
    destruct Ss as [Ls Fs], So as [Lo Fo], Sr as [Lr Fr].
    destruct (nth_error s k) as [rs|] eqn:Es;
      [|apply nth_error_None in Es; lia].
    destruct (nth_error o k) as [ro|] eqn:Eo;
      [|apply nth_error_None in Eo; lia].
    destruct (nth_error r k) as [rr|] eqn:Er;
      [|apply nth_error_None in Er; lia].
    rewrite Forall_forall in Fs, Fo, Fr.
    exists rs, rr, ro.
    repeat (split; [solve [auto | symmetry; assumption
                           | eauto using nth_error_In]|]).
    rewrite !nth_error_map.
    erewrite nth_error_combine; [| |exact Eo].
    2:{ rewrite nth_error_map. erewrite nth_error_combine; eauto. reflexivity. }
    reflexivity.
Qed.

(** The real-valued decoder is the decoder over the real arithmetic. *)
Lemma DistMult_real embed edge_index edge_type model :
  DistMult embed edge_index edge_type model
  = DistMult_over real_arith embed edge_index edge_type (w_rels model).
Proof. reflexivity. Qed.

(** C1, as the code has it.  Over the arithmetic of the tensors, on an
    embedding and relation weights with [dims] columns, one relation
    type per edge and indices that address existing rows, DistMult
    returns one value per edge: for the edge (s, o) of relation r it is
    the sigmoid of the sum over the dimensions d of
    (embed[s][d] * w_rels[r][d]) * embed[o][d].  The sigmoid maps every
    score that is not NaN into [0,1], so the value lies in [0,1] whenever
    the score is not NaN. *)
Theorem DistMult_over_spec T (A : Arith T) (is_nan in_unit : T -> Prop)
    (embed : list (list T)) (edge_index : EdgeIndex) (edge_type : list Z)
    (w_rels : list (list T)) (nodes dims rels : nat) :
  (forall v, ~ is_nan v -> in_unit (a_sigmoid A v)) ->
  shape_over embed nodes dims ->
  shape_over w_rels rels dims ->
  length edge_type = length edge_index ->
  in_nodes nodes edge_index ->
  Forall (in_range rels) edge_type ->
  exists probs,
    DistMult_over A embed edge_index edge_type w_rels = Some probs
    /\ length probs = length edge_index
    /\ forall k s o r,
        nth_error edge_index k = Some (s, o) ->
        nth_error edge_type k = Some r ->
        exists es er eo,
          py_get embed s = Some es /\ py_get w_rels r = Some er
          /\ py_get embed o = Some eo
          /\ nth_error probs k = Some (a_sigmoid A (score_over A es er eo))
          /\ (~ is_nan (score_over A es er eo) ->
              in_unit (a_sigmoid A (score_over A es er eo))).
Proof.
  intros Hsig Hemb Hw Hlen Hedges Htypes.
  destruct (DistMult_over_entries A Hemb Hw Hlen Hedges Htypes)
    as (probs & Hd & Hl & Hk).
  exists probs. split; [exact Hd|]. split; [exact Hl|].
  intros k s o r Hs Hr.
  destruct (Hk k s o r Hs Hr) as (es & er & eo & Hes & Her & Heo & _ & _ & _ & Hp).
  exists es, er, eo. repeat (split; [assumption|]). apply Hsig.
Qed.

Lemma DistMult_over_spec_witness :
  exists probs,
    DistMult_over real_arith example_embed [(0, -1)%Z] [0%Z] (w_rels example_model)
    = Some probs
    /\ length probs = 1
    /\ forall k s o r,
        nth_error [(0, -1)%Z] k = Some (s, o) ->
        nth_error [0%Z] k = Some r ->
        exists es er eo,
          py_get example_embed s = Some es
          /\ py_get (w_rels example_model) r = Some er
          /\ py_get example_embed o = Some eo
          /\ nth_error probs k = Some (sigmoid (score_over real_arith es er eo))
          /\ (~ False ->
              (0 <= sigmoid (score_over real_arith es er eo) <= 1)%R).
Proof.
  apply (@DistMult_over_spec R real_arith (fun _ => False)
           (fun p => (0 <= p <= 1)%R) example_embed [(0, -1)%Z] [0%Z]
           (w_rels example_model) 2 2 1).
  - intros v _. pose proof (sigmoid_range v). simpl. lra.
  - split; [reflexivity | repeat constructor].
  - split; [reflexivity | repeat constructor].
  - reflexivity.
  - repeat constructor; unfold in_range; simpl; lia.
  - repeat constructor; unfold in_range; simpl; lia.
Defined.

(** C1, as stated, fails in the arithmetic of the code.  In single
    precision 2^100 * 2^100 overflows to infinity and infinity * 0 is
    NaN: on the embedding [[2^100]; [0]] and the relation weights
    [[2^100]], the edge (0, 1) of relation 0 gets the score NaN, and with
    a row sum and a sigmoid that hand a NaN on, DistMult returns NaN,
    which is neither at least 0 nor at most 1. *)
Lemma DistMult_float32_not_in_unit :
  f32_mul (f32_mul f32_2p100 f32_2p100) f32_zero = S754_nan
  /\ ~ f32_in_unit S754_nan
  /\ forall (sum32 : list float32 -> float32) (sigmoid32 : float32 -> float32),
      sum32 [S754_nan] = S754_nan ->
      sigmoid32 S754_nan = S754_nan ->
      DistMult_over (float32_arith sum32 sigmoid32)
                    [[f32_2p100]; [f32_zero]] [(0, 1)%Z] [0%Z] [[f32_2p100]]
      = Some [S754_nan].
Proof.
  split; [reflexivity|]. split.
  - intros [H _]. discriminate H.
  - intros sum32 sigmoid32 Hsum Hsig.
    unfold DistMult_over, float32_arith. cbv -[f32_mul f32_2p100 f32_zero].
    change (f32_mul (f32_mul f32_2p100 f32_2p100) f32_zero) with S754_nan.
    now rewrite Hsum, Hsig.
Qed.

(** Relation weights of another width than the embedding raise. *)
Example DistMult_width_mismatch :
  DistMult example_embed [(0, 1)%Z] [0%Z]
           (mkRGCN 1 pass_through pass_through [[1; 1; 1]]%R) = None.
Proof. reflexivity. Qed.

(** Over the reals the same holds with the score of the spec, the sum of
    the products embed[s][d] * w_rels[r][d] * embed[o][d]. *)
Lemma DistMult_entries (embed : Matrix) (edge_index : EdgeIndex) (edge_type : list Z)
    (model : RGCN) (nodes dims rels : nat) :
  has_shape embed nodes dims ->
  has_shape (w_rels model) rels dims ->
  length edge_type = length edge_index ->
  in_nodes nodes edge_index ->
  Forall (in_range rels) edge_type ->
  exists probs,
    DistMult embed edge_index edge_type model = Some probs
    /\ length probs = length edge_index
    /\ forall k s o r,
        nth_error edge_index k = Some (s, o) ->
        nth_error edge_type k = Some r ->
        nth_error probs k
        = Some (sigmoid (distmult_score embed (w_rels model) dims s o r)).
Proof.
  intros Hemb Hw Hlen Hedges Htypes.
  destruct (@DistMult_over_entries R real_arith embed edge_index edge_type
              (w_rels model) nodes dims rels Hemb Hw Hlen Hedges Htypes)
    as (probs & Hd & Hl & Hk).
  exists probs. split; [exact Hd|]. split; [exact Hl|].
  intros k s o r Hs Hr.
  destruct (Hk k s o r Hs Hr) as (es & er & eo & Hes & Her & Heo & Ls & Lr & Lo & ->).
  apply f_equal.
  change (sigmoid (sum_list (zip_mul (zip_mul es er) eo))
          = sigmoid (distmult_score embed (w_rels model) dims s o r)).
  apply f_equal.
  rewrite (@triple_sum es er eo dims) by assumption.
  unfold distmult_score. apply f_equal, map_ext. intros d.
  now rewrite (@entry_row embed s es d), (@entry_row (w_rels model) r er d),
    (@entry_row embed o eo d).
Qed.

(** ** The label vector *)

Lemma get_link_labels_eq (p n : Z) :
  (0 <= p)%Z -> (0 <= n)%Z ->
  get_link_labels p n = Some (repeat 1%R (Z.to_nat p) ++ repeat 0%R (Z.to_nat n)).
Proof.
  intros Hp Hn. unfold get_link_labels, zeros.
  destruct (p + n <? 0)%Z eqn:E; [apply Z.ltb_lt in E; lia|]. simpl.
  unfold assign_slice_to, slice_stop.
  destruct (p <? 0)%Z eqn:E'; [apply Z.ltb_lt in E'; lia|].
  rewrite repeat_length, Z2Nat.inj_add by assumption.
  rewrite Nat.min_l by lia.
  rewrite repeat_app, skipn_app, repeat_length, Nat.sub_diag.
  rewrite skipn_all2 by (rewrite repeat_length; lia).
  reflexivity.
Qed.

(** C3.  For non-negative lengths p and n, get_link_labels returns a
    vector of length p + n whose first p entries are 1 and whose
    remaining n entries are 0; it holds exactly p ones. *)
Theorem get_link_labels_spec (p n : Z) :
  (0 <= p)%Z -> (0 <= n)%Z ->
  exists labels,
    get_link_labels p n = Some labels
    /\ Z.of_nat (length labels) = (p + n)%Z
    /\ (forall i, (0 <= i < p)%Z -> nth_error labels (Z.to_nat i) = Some 1%R)
    /\ (forall i, (p <= i < p + n)%Z -> nth_error labels (Z.to_nat i) = Some 0%R)
    /\ Z.of_nat (count_ones labels) = p.
Proof.
  intros Hp Hn. eexists. split; [apply get_link_labels_eq; assumption|].
  split; [|split; [|split]].
  - rewrite length_app, !repeat_length. lia.
  - intros i Hi. rewrite nth_error_app1 by (rewrite repeat_length; lia).
    apply nth_error_repeat. lia.
  - intros i Hi. rewrite nth_error_app2 by (rewrite repeat_length; lia).
    rewrite repeat_length. apply nth_error_repeat. lia.
  - unfold count_ones. rewrite count_occ_app.
    rewrite count_occ_repeat_eq by reflexivity.
    rewrite count_occ_repeat_neq by lra. lia.
Qed.

Lemma get_link_labels_spec_witness :
  exists labels,
    get_link_labels 2 3 = Some labels
    /\ Z.of_nat (length labels) = (2 + 3)%Z
    /\ (forall i, (0 <= i < 2)%Z -> nth_error labels (Z.to_nat i) = Some 1%R)
    /\ (forall i, (2 <= i < 2 + 3)%Z -> nth_error labels (Z.to_nat i) = Some 0%R)
    /\ Z.of_nat (count_ones labels) = 2%Z.
Proof. apply (@get_link_labels_spec 2 3); lia. Defined.

Example get_link_labels_2_3 :
  get_link_labels 2 3 = Some [1; 1; 0; 0; 0]%R.
Proof. reflexivity. Qed.

(** ** The encoder *)

(** C2, as the code has it.  The encoder's output is the row-wise
    log-softmax of the second relation-aware convolution applied to the
    ReLU of the first one applied to x; it raises exactly when one of the
    two convolutions raises. *)
Theorem forward_spec (self : RGCN) (x : Matrix) (edge_index : EdgeIndex)
    (edge_type : IntTensor) :
  forward self x edge_index edge_type
  = option_map log_softmax (two_convolutions self x edge_index edge_type).
Proof.
  unfold forward, two_convolutions.
  destruct (conv1 self x edge_index edge_type) as [x1|]; simpl; [|reflexivity].
  destruct (conv2 self (relu x1) edge_index edge_type); reflexivity.
Qed.

(** C2, as stated, fails: with layers that hand their input on, the
    features [[1]] are encoded as [[0]], not as the output [[1]] of the
    two stacked convolutions. *)
Lemma forward_is_not_two_convolutions :
  forward example_model [[1]]%R [] (Vector [])
  <> two_convolutions example_model [[1]]%R [] (Vector []).
Proof.
  unfold forward, two_convolutions, example_model, pass_through; simpl.
  rewrite Rmax_right by lra.
  unfold log_softmax_row; simpl.
  rewrite Rplus_0_r, ln_exp.
  intros [= H]. lra.
Qed.

Example forward_of_one :
  forward example_model [[1]]%R [] (Vector []) = Some [[0]]%R.
Proof.
  unfold forward, example_model, pass_through; simpl.
  rewrite Rmax_right by lra.
  unfold log_softmax_row; simpl.
  rewrite Rplus_0_r, ln_exp. do 3 f_equal. lra.
Qed.

(** ** Reasoning about steps *)

Lemma Leaves_pbind B C (Q1 : B -> Prop) (Q2 : C -> Prop) (p : Prog B) (f : B -> Prog C) :
  Leaves Q1 p -> (forall b, Q1 b -> Leaves Q2 (f b)) -> Leaves Q2 (pbind p f).
Proof.
  induction 1 as [b Hb | X e k _ IH]; intros Hf; simpl.
  - now apply Hf.
  - constructor. intros a. now apply IH.
Qed.

Lemma AllCalls_weaken (P P' : forall X, Ext X -> Prop) B (p : Prog B) :
  (forall X e, P X e -> P' X e) -> AllCalls P p -> AllCalls P' p.
Proof.
  intros HP. induction 1; constructor; auto.
Qed.

Section Frame.
Context {T A B : Type} (f : World -> T).

Lemma preserves_ret (a : A) : preserves f (ret a).
Proof. intros w. now constructor. Qed.

Lemma preserves_raise : preserves f (@raise A).
Proof. intros w. now constructor. Qed.

Lemma preserves_lift (o : option A) : preserves f (lift o).
Proof. destruct o; [apply preserves_ret | apply preserves_raise]. Qed.

Lemma preserves_call (e : Ext A) : preserves f (call e).
Proof. intros w. constructor. intros a. apply preserves_lift. Qed.

Lemma preserves_gets (g : World -> A) : preserves f (gets g).
Proof. intros w. now constructor. Qed.

Lemma preserves_modify (g : World -> World) :
  (forall w, f (g w) = f w) -> preserves f (modify g).
Proof. intros Hg w. constructor. apply Hg. Qed.

Lemma preserves_bind (m : M A) (k : A -> M B) :
  preserves f m -> (forall a, preserves f (k a)) -> preserves f (bind m k).
Proof.
  intros Hm Hk w. unfold bind.
  eapply Leaves_pbind; [apply Hm|].
  intros [[a|] w'] Hw'; simpl in *.
  - rewrite <- Hw'. apply Hk.
  - now constructor.
Qed.
End Frame.

Create HintDb frame.

#[local] Hint Resolve preserves_ret preserves_raise preserves_lift preserves_call
  preserves_gets : frame.

Ltac frame_step :=
  lazymatch goal with
  | |- preserves _ (bind _ _) => apply preserves_bind; [|intros ?]
  | |- preserves _ (modify _) => apply preserves_modify; intros []; reflexivity
  | |- preserves _ (let '(_, _) := ?r in _) => destruct r
  | |- preserves _ (if ?b then _ else _) => destruct b
  | |- preserves _ _ => solve [auto with frame]
  end.

Lemma per_relation_preserves_model rels edge_types probs labels :
  preserves model (per_relation rels edge_types probs labels).
Proof.
  induction rels as [|i rels IH]; simpl.
  - apply preserves_ret.
  - destruct (mask_sum _ =? 0); [exact IH|].
    repeat frame_step.
Qed.

(** C6.  In whatever state it starts and whatever the libraries answer,
    the validation step ends with the model it started with: both
    convolution layers and the relation weights w_rels are unchanged. *)
Theorem validation_preserves_model (data : Data) (embed : Matrix) (evaluate_rel : bool)
    (w : World) :
  Leaves (fun r => model (snd r) = model w
                   /\ conv1 (model (snd r)) = conv1 (model w)
                   /\ conv2 (model (snd r)) = conv2 (model w)
                   /\ w_rels (model (snd r)) = w_rels (model w))
         (validation data embed evaluate_rel w).
Proof.
  assert (preserves model (validation data embed evaluate_rel)) as H.
  { unfold validation. repeat frame_step.
    apply per_relation_preserves_model. }
  specialize (H w).
  induction H as [b Hb | X e k _ IH]; constructor; auto.
  now rewrite Hb.
Qed.

(** ** The per-relation loop *)

Lemma masked_select_length A (l : list A) mask sel :
  masked_select l mask = Some sel -> length sel = mask_sum mask.
Proof.
  unfold masked_select, mask_sum.
  destruct (length l =? length mask) eqn:E; [|discriminate].
  intros [= <-]. apply Nat.eqb_eq in E.
  revert mask E; induction l as [|a l IH]; intros [|b mask] E; simpl in *;
    try discriminate; try reflexivity.
  destruct b; simpl; rewrite IH by lia; reflexivity.
Qed.

Lemma mask_sum_In (z : Z) (edge_types : list Z) :
  mask_sum (map (fun t => (t =? z)%Z) edge_types) <> 0 -> In z edge_types.
Proof.
  unfold mask_sum. induction edge_types as [|t l IH]; simpl; [congruence|].
  destruct (t =? z)%Z eqn:E.
  - intros _. left. now apply Z.eqb_eq.
  - intros H. right. now apply IH.
Qed.

Lemma per_relation_calls_in rels edge_types probs labels w :
  AllCalls (per_relation_call rels edge_types probs labels)
           (per_relation rels edge_types probs labels w).
Proof.
  revert w. induction rels as [|i rels IH]; intros w; simpl.
  - constructor.
  - assert (forall w', AllCalls (per_relation_call (i :: rels) edge_types probs labels)
                         (per_relation rels edge_types probs labels w')) as IH'.
    { intros w'. eapply AllCalls_weaken; [|apply IH].
      intros X [] HP; try contradiction.
      destruct HP as (j & Hj & Hrest). exists j. split; [now right | exact Hrest]. }
    set (mask := map (fun t => (t =? Z.of_nat i)%Z) edge_types).
    destruct (mask_sum mask =? 0) eqn:E; [apply IH'|].
    apply Nat.eqb_neq in E.
    destruct (masked_select probs mask) as [ys|] eqn:Ep; cbn; [|constructor].
    destruct (masked_select labels mask) as [yt|] eqn:El; cbn; [|constructor].
    constructor.
    + exists i. split; [now left|]. split; [now apply mask_sum_In|].
      split; [exact El|]. split; [exact Ep|].
      apply masked_select_length in Ep, El.
      split; intros ->; simpl in *; lia.
    + intros [a|]; cbn; [|constructor].
      destruct (dict_append (auroc_edge_type w) i a); cbn; [|constructor].
      apply IH'.
Qed.

(** C5.  Whatever the libraries answer, every call the per-relation
    loop over the relation indices 0 .. num_relations-1 makes is an AUROC
    call for one such index i that at least one edge of the batch has,
    on the labels and probabilities of the edges of type i, and this
    selection is not empty: a relation without matched edges is skipped. *)
Theorem per_relation_never_empty (num_relations : nat) (edge_types : list Z)
    (probs labels : list R) (w : World) :
  AllCalls
    (fun X (e : Ext X) =>
       match e with
       | roc_auc_score y_true y_score =>
           exists i,
             i < num_relations
             /\ In (Z.of_nat i) edge_types
             /\ masked_select labels (map (fun t => (t =? Z.of_nat i)%Z) edge_types)
                = Some y_true
             /\ masked_select probs (map (fun t => (t =? Z.of_nat i)%Z) edge_types)
                = Some y_score
             /\ y_true <> [] /\ y_score <> []
       | _ => False
       end)
    (per_relation (seq 0 num_relations) edge_types probs labels w).
Proof.
  eapply AllCalls_weaken; [|apply per_relation_calls_in].
  intros X [] HP; try contradiction.
  destruct HP as (i & Hi & Hrest). exists i. split; [|exact Hrest].
  apply in_seq in Hi. lia.
Qed.

(** ** One step, after the sampler has answered *)

Lemma scores_sampled_weaken p w embed nodes pos tys
    (Q Q' : EdgeIndex -> list R -> Prop) :
  (forall neg probs, length neg <= length pos -> Q neg probs -> Q' neg probs) ->
  scores_sampled p w embed nodes pos tys Q ->
  scores_sampled p w embed nodes pos tys Q'.
Proof.
  intros HQ (k & Hk & Hneg). exists k. split; [exact Hk|].
  intros neg Hin Hle. destruct (Hneg neg Hin Hle) as (probs & Hd & Hq & Hrest).
  exists probs. split; [exact Hd|]. split; [now apply HQ | exact Hrest].
Qed.

Lemma masked_select_same_length A B (la : list A) (lb : list B) mask sa sb :
  masked_select la mask = Some sa -> masked_select lb mask = Some sb ->
  length sa = length sb.
Proof.
  intros Ha Hb. apply masked_select_length in Ha, Hb. congruence.
Qed.

Lemma squeeze_vector tys l : squeeze tys = Vector l -> l = tys.
Proof.
  destruct tys as [|z [|z' tys]]; simpl; intros H; inversion H; reflexivity.
Qed.

Lemma squeeze_not_single tys : length tys <> 1 -> squeeze tys = Vector tys.
Proof.
  destruct tys as [|z [|z' tys]]; simpl; intros H; try reflexivity. congruence.
Qed.

Lemma binary_cross_entropy_length probs labels loss :
  binary_cross_entropy probs labels = Some loss -> length probs = length labels.
Proof.
  unfold binary_cross_entropy.
  destruct (length probs =? length labels) eqn:E; [|discriminate].
  intros _. now apply Nat.eqb_eq.
Qed.

Lemma slice_to_firstn A (l : list A) (k : nat) :
  slice_to l (Z.of_nat k) = firstn k l.
Proof.
  unfold slice_to, slice_stop.
  destruct (Z.of_nat k <? 0)%Z eqn:E; [apply Z.ltb_lt in E; lia|].
  rewrite Nat2Z.id.
  destruct (Nat.le_gt_cases k (length l)).
  - now rewrite Nat.min_l.
  - rewrite Nat.min_r by lia. rewrite firstn_all, firstn_all2 by lia. reflexivity.
Qed.

Lemma firstn_Forall A (P : A -> Prop) (l : list A) k :
  Forall P l -> Forall P (firstn k l).
Proof.
  intros H. revert k. induction H as [|a l Ha _ IH]; intros [|k]; simpl;
    constructor; auto.
Qed.

Lemma batch_scored embed m nodes dims rels pos tys neg :
  length tys = length pos ->
  has_shape embed nodes dims ->
  has_shape (w_rels m) rels dims ->
  in_nodes nodes pos ->
  Forall (in_range rels) tys ->
  in_nodes nodes neg ->
  length neg <= length pos ->
  exists probs,
    DistMult embed (pos ++ neg) (tys ++ firstn (length neg) tys) m = Some probs
    /\ scored_rows embed m pos tys neg probs.
Proof.
  intros Hlen Hemb Hw Hpos Htys Hneg Hle.
  destruct (@DistMult_over_entries R real_arith embed (pos ++ neg)
              (tys ++ firstn (length neg) tys) (w_rels m) nodes dims rels)
    as (probs & Hd & Hl & Hk); try assumption.
  - rewrite !length_app, length_firstn. lia.
  - apply Forall_app. split; assumption.
  - apply Forall_app. split; [assumption | now apply firstn_Forall].
  - exists probs. split; [exact Hd|]. split.
    + now rewrite Hl, length_app.
    + intros k s o t Hs Ht.
      destruct (Hk k s o t Hs Ht) as (es & er & eo & H1 & H2 & H3 & _ & _ & _ & H4).
      exists es, er, eo. repeat split; assumption.
Qed.

Lemma train_scores_sampled data embed w nodes dims rels pos tys :
  masked_select (edge_index data) (train_mask data) = Some pos ->
  masked_select (edge_type data) (train_mask data) = Some tys ->
  length pos <> 1 ->
  has_shape embed nodes dims ->
  has_shape (w_rels (model w)) rels dims ->
  in_nodes nodes pos ->
  Forall (in_range rels) tys ->
  scores_sampled (train data embed w) w embed nodes pos tys
                 (scored_rows embed (model w) pos tys).
Proof.
  intros Hpos Htys Hone Hemb Hw Hin Hty.
  pose proof (@masked_select_same_length _ _ _ _ _ _ _ Htys Hpos) as Hlen.
  unfold train, scores_sampled. rewrite Hpos, Htys. cbn.
  eexists; split; [reflexivity|]. intros neg Hneg Hle.
  destruct (@batch_scored embed (model w) nodes dims rels pos tys neg)
    as (probs & Hd & Hq); try assumption.
  exists probs. split; [exact Hd|]. split; [exact Hq|].
  destruct (binary_cross_entropy probs (link_labels_of pos neg)) as [loss|] eqn:Hb;
    cbn; rewrite squeeze_not_single by congruence; cbn;
    unfold size1; rewrite get_link_labels_eq by lia;
    rewrite slice_to_firstn, !Nat2Z.id; cbn;
    unfold get_metrics; fold (link_labels_of pos neg); rewrite Hd; cbn;
    rewrite Hb; cbn; [|reflexivity].
  eexists; split; [reflexivity|]. intros a. cbn. eexists. reflexivity.
Qed.

Lemma validation_scores_sampled data embed evaluate_rel w nodes dims rels pos tys :
  masked_select (edge_index data) (val_mask data) = Some pos ->
  masked_select (edge_type data) (val_mask data) = Some tys ->
  length pos <> 1 ->
  has_shape embed nodes dims ->
  has_shape (w_rels (model w)) rels dims ->
  in_nodes nodes pos ->
  Forall (in_range rels) tys ->
  scores_sampled (validation data embed evaluate_rel w) w embed nodes pos tys
                 (scored_rows embed (model w) pos tys).
Proof.
  intros Hpos Htys Hone Hemb Hw Hin Hty.
  pose proof (@masked_select_same_length _ _ _ _ _ _ _ Htys Hpos) as Hlen.
  unfold validation, scores_sampled. rewrite Hpos, Htys. cbn.
  eexists; split; [reflexivity|]. intros neg Hneg Hle.
  destruct (@batch_scored embed (model w) nodes dims rels pos tys neg)
    as (probs & Hd & Hq); try assumption.
  exists probs. split; [exact Hd|]. split; [exact Hq|].
  destruct (binary_cross_entropy probs (link_labels_of pos neg)) as [loss|] eqn:Hb;
    cbn; rewrite squeeze_not_single by congruence; cbn;
    unfold size1; rewrite get_link_labels_eq by lia;
    rewrite slice_to_firstn, !Nat2Z.id; cbn;
    unfold get_metrics; fold (link_labels_of pos neg); rewrite Hd; cbn;
    rewrite Hb; cbn; [|reflexivity].
  eexists; split; [reflexivity|]. intros a. cbn. eexists. reflexivity.
Qed.

Lemma step_scores_sampled validating data embed evaluate_rel w nodes dims rels pos tys :
  masked_select (edge_index data) (step_mask validating data) = Some pos ->
  masked_select (edge_type data) (step_mask validating data) = Some tys ->
  length pos <> 1 ->
  has_shape embed nodes dims ->
  has_shape (w_rels (model w)) rels dims ->
  in_nodes nodes pos ->
  Forall (in_range rels) tys ->
  scores_sampled (one_step validating data embed evaluate_rel w) w embed
                 nodes pos tys (scored_rows embed (model w) pos tys).
Proof.
  destruct validating; simpl; intros.
  - eapply validation_scores_sampled; eassumption.
  - eapply train_scores_sampled; eassumption.
Qed.

Lemma count_ones_labels (p n : nat) :
  count_ones (repeat 1%R p ++ repeat 0%R n) = p.
Proof.
  unfold count_ones. rewrite count_occ_app.
  rewrite count_occ_repeat_eq by reflexivity.
  rewrite count_occ_repeat_neq by lra. lia.
Qed.

(** C4, as the code has it.  A training step asks the sampler for
    exactly as many negative edges as the training mask selects positive
    edges, and a validation step likewise with the validation mask.
    Whatever edges the sampler answers (on the nodes of the embedding, no
    more than asked for), the step scores the positive edges followed by
    the answered edges, against one label 1 per positive edge followed
    by one label 0 per answered edge, and, unless the loss function
    rejects the scores, hands these labels and probabilities to the
    metrics; the batch has equally many edges of both kinds when the
    sampler answers as many as asked. *)
Theorem steps_ask_for_as_many_negatives (validating : bool) (data : Data)
    (embed : Matrix) (evaluate_rel : bool) (w : World) (nodes dims rels : nat)
    (pos : EdgeIndex) (tys : list Z) :
  masked_select (edge_index data) (step_mask validating data) = Some pos ->
  masked_select (edge_type data) (step_mask validating data) = Some tys ->
  length pos <> 1 ->
  has_shape embed nodes dims ->
  has_shape (w_rels (model w)) rels dims ->
  in_nodes nodes pos ->
  Forall (in_range rels) tys ->
  scores_sampled (one_step validating data embed evaluate_rel w) w embed
                 nodes pos tys (one_label_per_edge pos).
Proof.
  intros Hpos Htys Hone Hemb Hw Hin Hty.
  eapply scores_sampled_weaken; [|eapply step_scores_sampled; eassumption].
  intros neg probs _ [Hl _]. unfold one_label_per_edge, link_labels_of.
  rewrite count_ones_labels, length_app, !repeat_length.
  repeat split; try assumption; lia.
Qed.

Lemma steps_ask_for_as_many_negatives_witness :
  scores_sampled (train dense_batch [[0]; [0]]%R toy_world) toy_world [[0]; [0]]%R
                 2 [(0, 0); (0, 1); (1, 0)]%Z [0; 1; 0]%Z
                 (one_label_per_edge [(0, 0); (0, 1); (1, 0)]%Z)
  /\ scores_sampled (validation dense_batch [[0]; [0]]%R true toy_world) toy_world
                    [[0]; [0]]%R 2 [(0, 0); (0, 1); (1, 0)]%Z [0; 1; 0]%Z
                    (one_label_per_edge [(0, 0); (0, 1); (1, 0)]%Z).
Proof.
  split.
  - apply (@steps_ask_for_as_many_negatives false dense_batch [[0]; [0]]%R true
             toy_world 2 1 2 [(0, 0); (0, 1); (1, 0)]%Z [0; 1; 0]%Z);
      try reflexivity; try (simpl; lia);
      try (split; [reflexivity | repeat constructor]);
      repeat constructor; unfold in_range; simpl; lia.
  - apply (@steps_ask_for_as_many_negatives true dense_batch [[0]; [0]]%R true
             toy_world 2 1 2 [(0, 0); (0, 1); (1, 0)]%Z [0; 1; 0]%Z);
      try reflexivity; try (simpl; lia);
      try (split; [reflexivity | repeat constructor]);
      repeat constructor; unfold in_range; simpl; lia.
Defined.

(** C10.  In a training step and in a validation step alike, whatever
    edges the sampler answers (on the nodes of the embedding, no more
    than asked for), the j-th negative edge is scored under the relation
    type of the j-th positive edge, a prefix of the positive edge-type
    vector that does not depend on the endpoints of the negative edge,
    and, unless the loss function rejects the scores, these scores are
    among the probabilities handed to the metrics. *)
Theorem negative_types_copy_positive_prefix (validating : bool) (data : Data)
    (embed : Matrix) (evaluate_rel : bool) (w : World) (nodes dims rels : nat)
    (pos : EdgeIndex) (tys : list Z) :
  masked_select (edge_index data) (step_mask validating data) = Some pos ->
  masked_select (edge_type data) (step_mask validating data) = Some tys ->
  length pos <> 1 ->
  has_shape embed nodes dims ->
  has_shape (w_rels (model w)) rels dims ->
  in_nodes nodes pos ->
  Forall (in_range rels) tys ->
  scores_sampled (one_step validating data embed evaluate_rel w) w embed
                 nodes pos tys
                 (negatives_under_positive_types embed (model w) pos tys).
Proof.
  intros Hpos Htys Hone Hemb Hw Hin Hty.
  pose proof (@masked_select_same_length _ _ _ _ _ _ _ Htys Hpos) as Hlen.
  eapply scores_sampled_weaken; [|eapply step_scores_sampled; eassumption].
  intros neg probs Hle [_ Hk] j s o Hj.
  assert (j < length neg) as Hlt by (apply nth_error_Some; congruence).
  destruct (nth_error tys j) as [t|] eqn:Et; [|apply nth_error_None in Et; lia].
  destruct (Hk (length pos + j) s o t) as (es & er & eo & H1 & H2 & H3 & H4).
  - rewrite nth_error_app2 by lia.
    now replace (length pos + j - length pos) with j by lia.
  - rewrite nth_error_app2 by lia.
    replace (length pos + j - length tys) with j by lia.
    rewrite nth_error_firstn.
    apply Nat.ltb_lt in Hlt. now rewrite Hlt.
  - exists t, es, er, eo. repeat split; assumption.
Qed.

Lemma negative_types_copy_positive_prefix_witness :
  scores_sampled (train dense_batch [[0]; [0]]%R toy_world) toy_world [[0]; [0]]%R
                 2 [(0, 0); (0, 1); (1, 0)]%Z [0; 1; 0]%Z
                 (negatives_under_positive_types [[0]; [0]]%R (model toy_world)
                    [(0, 0); (0, 1); (1, 0)]%Z [0; 1; 0]%Z)
  /\ scores_sampled (validation dense_batch [[0]; [0]]%R false toy_world) toy_world
                    [[0]; [0]]%R 2 [(0, 0); (0, 1); (1, 0)]%Z [0; 1; 0]%Z
                    (negatives_under_positive_types [[0]; [0]]%R (model toy_world)
                       [(0, 0); (0, 1); (1, 0)]%Z [0; 1; 0]%Z).
Proof.
  split.
  - apply (@negative_types_copy_positive_prefix false dense_batch [[0]; [0]]%R false
             toy_world 2 1 2 [(0, 0); (0, 1); (1, 0)]%Z [0; 1; 0]%Z);
      try reflexivity; try (simpl; lia);
      try (split; [reflexivity | repeat constructor]);
      repeat constructor; unfold in_range; simpl; lia.
  - apply (@negative_types_copy_positive_prefix true dense_batch [[0]; [0]]%R false
             toy_world 2 1 2 [(0, 0); (0, 1); (1, 0)]%Z [0; 1; 0]%Z);
      try reflexivity; try (simpl; lia);
      try (split; [reflexivity | repeat constructor]);
      repeat constructor; unfold in_range; simpl; lia.
Defined.

(** ** The sampler *)

Lemma is_edge_false ei e : is_edge ei e = false -> ~ In e ei.
Proof.
  intros H Hin. unfold is_edge in H.
  assert (existsb (fun e' => (fst e =? fst e')%Z && (snd e =? snd e')%Z) ei = true)
    as Ht.
  { apply existsb_exists. exists e. split; [exact Hin|].
    now rewrite !Z.eqb_refl. }
  congruence.
Qed.

Lemma node_pairs_bounds n e :
  In e (node_pairs n) -> (0 <= fst e < n)%Z /\ (0 <= snd e < n)%Z.
Proof.
  destruct e as [u v]. unfold node_pairs. rewrite in_prod_iff, !in_map_iff.
  intros [(i & <- & Hi) (j & <- & Hj)]. apply in_seq in Hi, Hj. simpl. lia.
Qed.

Lemma firstn_incl A (l : list A) k a : In a (firstn k l) -> In a l.
Proof.
  revert l; induction k as [|k IH]; intros [|b l]; simpl; try tauto.
  intros [->|H]; [now left | right; now apply IH].
Qed.

(** The reference sampler answers non-existent edges only. *)
Lemma first_non_edges_sound ei k : non_existent_edges ei (first_non_edges ei k).
Proof.
  unfold non_existent_edges, first_non_edges. apply Forall_forall. intros e He.
  apply firstn_incl in He. apply filter_In in He as [Hpairs Hne].
  apply negb_true_iff in Hne.
  split; [now apply is_edge_false | now apply node_pairs_bounds].
Qed.

(** C4, as stated, fails.  On a batch of two nodes whose three training
    edges leave one pair of nodes unconnected, the step asks for three
    negative edges and the sampler answers the one edge there is: three
    positive edges against one negative edge.  No sampler of distinct
    non-existent edges can answer more. *)
Lemma negatives_fewer_than_positives :
  sampling_log (env_of (reference_library [])) (train dense_batch [[0]; [0]]%R toy_world)
  = [([(0, 0); (0, 1); (1, 0)]%Z, 3%Z, Some [(1, 1)%Z])]
  /\ non_existent_edges [(0, 0); (0, 1); (1, 0)]%Z [(1, 1)%Z]
  /\ forall neg,
      non_existent_edges [(0, 0); (0, 1); (1, 0)]%Z neg -> NoDup neg ->
      length neg <= 1.
Proof.
  split; [reflexivity|]. split.
  - apply (first_non_edges_sound [(0, 0); (0, 1); (1, 0)]%Z 3).
  - assert (forall e, ~ In e [(0, 0); (0, 1); (1, 0)]%Z
                      /\ (0 <= fst e < 2)%Z /\ (0 <= snd e < 2)%Z ->
                      e = (1, 1)%Z) as Honly.
    { intros [u v] (Hnot & Hu & Hv). simpl in *.
      assert (u = 0 \/ u = 1)%Z as [-> | ->] by lia;
        assert (v = 0 \/ v = 1)%Z as [-> | ->] by lia;
        try reflexivity; exfalso; apply Hnot; auto. }
    intros neg Hneg Hnd. unfold non_existent_edges in Hneg.
    destruct neg as [|e1 [|e2 neg]]; simpl; try lia.
    exfalso. inversion Hneg as [|? ? H1 Hrest]; subst.
    inversion Hrest as [|? ? H2 _]; subst.
    apply Honly in H1, H2. subst.
    inversion Hnd as [|? ? Hnotin _]; subst. apply Hnotin. now left.
Qed.

(** ** Runs on small batches *)

(** The training step on the dense batch reaches its metrics with three
    labels 1 and one label 0. *)
Example train_dense_batch_labels :
  map fst (auroc_log (env_of (reference_library []))
             (train dense_batch [[0]; [0]]%R toy_world))
  = [[1; 1; 1; 0]%R].
Proof. reflexivity. Qed.

(** Training, unlike validation, does replace the model. *)
Example train_replaces_model :
  model (snd (run (env_of stepping_library)
                (train dense_batch [[0]; [0]]%R toy_world))) = example_model
  /\ example_model <> model toy_world.
Proof.
  split; [reflexivity|]. unfold example_model, toy_world, toy_model; simpl.
  intros H. discriminate H.
Qed.

(** The loop evaluates relation 1, which both edges have, and skips
    relations 0 and 2, which no edge has. *)
Example per_relation_skips :
  auroc_log (env_of (reference_library []))
    (per_relation (seq 0 3) [1; 1]%Z [0.25; 0.75]%R [1; 0]%R toy_world)
  = [([1; 0]%R, [0.25; 0.75]%R)].
Proof. reflexivity. Qed.

(** ** Reporting *)

(** C7 fails on the code.  The reporting cell evaluates the subgraphs
    the loader samples, not the graph: when the 32 subgraphs of the pass
    are drawn on nodes 0 and 1 of a graph whose validation split also
    holds the edges (2, 3) and (3, 2) of relation 1, these edges
    contribute to no AUROC, and relation 1 ends without any value. *)
Theorem report_covers_sampled_subgraphs_only :
  let lib := reference_library (repeat sampled_subgraph 32) in
  graph (data_loader toy_world) = whole_graph
  /\ masked_select (combine (edge_index whole_graph) (edge_type whole_graph))
                   (val_mask whole_graph)
     = Some [((0, 1), 0); ((1, 0), 0); ((2, 3), 1); ((3, 2), 1)]%Z
  /\ fst (run (env_of lib) (report toy_world)) = Normal tt
  /\ auroc_edge_type (snd (run (env_of lib) (report toy_world)))
     = [(0, repeat (1 / 2)%R 32); (1, [])].
Proof. repeat split. Qed.

Lemma Leaves_impl B (Q Q' : B -> Prop) (p : Prog B) :
  (forall b, Q b -> Q' b) -> Leaves Q p -> Leaves Q' p.
Proof. intros HQ. induction 1; constructor; auto. Qed.

Lemma preserves_bind_some T A B (f : World -> T) (a : A) (k : A -> M B) :
  preserves f (k a) -> preserves f (bind (lift (Some a)) k).
Proof. intros H w. exact (H w). Qed.

Lemma preserves_bind_none T A B (f : World -> T) (k : A -> M B) :
  preserves f (bind (lift None) k).
Proof. intros w. now constructor. Qed.

Lemma dict_append_other d i a d' j :
  dict_append d i a = Some d' -> j <> i -> dict_get d' j = dict_get d j.
Proof.
  revert d'; induction d as [|[k vs] d IH]; simpl; intros d' H Hne; [discriminate|].
  destruct (k =? i) eqn:E.
  - inversion H; subst; simpl. apply Nat.eqb_eq in E; subst k.
    destruct (i =? j) eqn:E'; [apply Nat.eqb_eq in E'; congruence | reflexivity].
  - destruct (dict_append d i a) as [d''|]; [|discriminate].
    inversion H; subst; simpl.
    destruct (k =? j); [reflexivity | now apply IH].
Qed.

Lemma dict_get_fresh (n j : nat) :
  j < n -> dict_get (map (fun rel => (rel, [])) (seq 0 n)) j = Some [].
Proof.
  intros Hj. assert (In j (seq 0 n)) as Hin by (apply in_seq; lia).
  induction (seq 0 n) as [|k l IH]; simpl in *; [contradiction|].
  destruct (k =? j) eqn:E; [reflexivity|].
  apply IH. destruct Hin as [->|H]; [|exact H].
  now rewrite Nat.eqb_refl in E.
Qed.

(** The loop leaves the list of a relation that no edge has as it is. *)
Lemma per_relation_keeps (j : nat) rels edge_types probs labels :
  ~ In (Z.of_nat j) edge_types ->
  preserves (fun w => dict_get (auroc_edge_type w) j)
            (per_relation rels edge_types probs labels).
Proof.
  intros Hj. induction rels as [|i rels IH]; intros w; simpl.
  - now constructor.
  - set (mask := map (fun t => (t =? Z.of_nat i)%Z) edge_types).
    destruct (mask_sum mask =? 0) eqn:E; [apply IH|].
    apply Nat.eqb_neq, mask_sum_In in E.
    assert (j <> i) as Hne by (intros ->; contradiction).
    destruct (masked_select probs mask) as [ys|]; cbn; [|now constructor].
    destruct (masked_select labels mask) as [yt|]; cbn; [|now constructor].
    constructor. intros [a|]; cbn; [|now constructor].
    destruct (dict_append (auroc_edge_type w) i a) as [d'|] eqn:Ed; cbn;
      [|now constructor].
    eapply Leaves_impl; [|apply IH]. cbn. intros r ->.
    eapply dict_append_other; eassumption.
Qed.

(** A validation step on a batch without validation edges of relation
    [j] leaves the list of relation [j] as it is. *)
Lemma validation_keeps (j : nat) data embed evaluate_rel :
  (forall tys, masked_select (edge_type data) (val_mask data) = Some tys ->
               ~ In (Z.of_nat j) tys) ->
  preserves (fun w => dict_get (auroc_edge_type w) j)
            (validation data embed evaluate_rel).
Proof.
  intros Hj. unfold validation.
  destruct (masked_select (edge_index data) (val_mask data)) as [pos|];
    [apply preserves_bind_some | apply preserves_bind_none].
  destruct (masked_select (edge_type data) (val_mask data)) as [tys|];
    [apply preserves_bind_some | apply preserves_bind_none].
  specialize (Hj tys eq_refl).
  frame_step; [frame_step|].
  destruct (squeeze tys) as [z|l] eqn:Es;
    [apply preserves_bind_none | apply preserves_bind_some].
  apply squeeze_vector in Es; subst l.
  repeat frame_step.
  apply per_relation_keeps.
  intros Hin. apply in_app_or in Hin as [Hin|Hin]; [contradiction|].
  apply firstn_incl in Hin. contradiction.
Qed.

Lemma report_batches_keeps (j : nat) batches :
  Forall (fun batch =>
            forall tys, masked_select (edge_type batch) (val_mask batch) = Some tys ->
                        ~ In (Z.of_nat j) tys) batches ->
  preserves (fun w => dict_get (auroc_edge_type w) j) (report_batches batches).
Proof.
  induction 1 as [|batch batches Hb _ IH]; simpl.
  - apply preserves_ret.
  - apply preserves_bind; [unfold get_embeddings; repeat frame_step|].
    intros embed. apply preserves_bind; [now apply validation_keeps|].
    intros _. exact IH.
Qed.

(** Whatever the libraries answer: the reporting cell asks the loader for
    one pass of sampled subgraphs, and a relation of which no sampled
    subgraph holds a validation edge ends with an empty list of values,
    whatever the graph itself holds. *)
Lemma report_depends_on_samples_only (w : World) (j : nat) :
  j < num_relations w ->
  exists k,
    report w = Vis (iterate (data_loader w)) k
    /\ forall batches,
        Forall (fun batch =>
                  forall tys,
                    masked_select (edge_type batch) (val_mask batch) = Some tys ->
                    ~ In (Z.of_nat j) tys) batches ->
        Leaves (fun r => dict_get (auroc_edge_type (snd r)) j = Some [])
               (k (Some batches)).
Proof.
  intros Hj. unfold report. cbn. eexists. split; [reflexivity|].
  intros batches Hb. cbn.
  eapply Leaves_impl; [|apply report_batches_keeps, Hb].
  cbn. intros r ->. now apply dict_get_fresh.
Qed.

(** ** The relation weights *)

Lemma insert_unique_In z l v : In v (insert_unique z l) <-> v = z \/ In v l.
Proof.
  induction l as [|u l IH]; simpl.
  - intuition.
  - destruct (z <? u)%Z; [simpl; intuition|].
    destruct (z =? u)%Z eqn:E.
    + apply Z.eqb_eq in E; subst. simpl. intuition.
    + simpl. rewrite IH. intuition.
Qed.

Lemma insert_unique_sorted z l :
  StronglySorted Z.lt l -> StronglySorted Z.lt (insert_unique z l).
Proof.
  induction 1 as [|u l Hs IH Hall]; simpl.
  - repeat constructor.
  - destruct (z <? u)%Z eqn:E1.
    + apply Z.ltb_lt in E1. constructor; [now constructor|].
      constructor; [exact E1|].
      eapply Forall_impl; [|exact Hall]. intros; lia.
    + destruct (z =? u)%Z eqn:E2; [now constructor|].
      apply Z.ltb_ge in E1. apply Z.eqb_neq in E2.
      constructor; [exact IH|].
      apply Forall_forall. intros v Hv. apply insert_unique_In in Hv as [->|Hv].
      * lia.
      * rewrite Forall_forall in Hall. now apply Hall.
Qed.

Lemma unique_sorted l : StronglySorted Z.lt (unique l).
Proof.
  induction l as [|z l IH]; simpl; [constructor | now apply insert_unique_sorted].
Qed.

Lemma unique_In l v : In v (unique l) <-> In v l.
Proof.
  induction l as [|z l IH]; simpl; [reflexivity|].
  rewrite insert_unique_In, IH. intuition.
Qed.

Lemma sorted_NoDup l : StronglySorted Z.lt l -> NoDup l.
Proof.
  induction 1 as [|u l _ IH Hall]; constructor; [|exact IH].
  intros Hin. rewrite Forall_forall in Hall. specialize (Hall u Hin). lia.
Qed.

(** The size of [edge_type.unique()] is the number of distinct values of
    [edge_type]. *)
Lemma unique_length l : length (unique l) = length (nodup Z.eq_dec l).
Proof.
  apply Permutation_length, NoDup_Permutation.
  - apply sorted_NoDup, unique_sorted.
  - apply NoDup_nodup.
  - intros v. now rewrite unique_In, nodup_In.
Qed.

Lemma fill_shape values rows cols :
  has_shape (fill values (Tensor rows cols)) rows cols.
Proof.
  unfold fill, Tensor, has_shape. split.
  - rewrite length_map, length_combine, length_seq, repeat_length. lia.
  - apply Forall_forall. intros row Hrow.
    apply in_map_iff in Hrow as ([i r] & <- & Hin). simpl.
    apply in_combine_r in Hin. apply repeat_spec in Hin. subst r.
    rewrite length_map, length_combine, length_seq, repeat_length. lia.
Qed.

Lemma builds_model_weaken p n (Q Q' : (nat -> nat -> R) -> World -> Prop) :
  (forall values w', Q values w' -> Q' values w') ->
  builds_model p n Q -> builds_model p n Q'.
Proof.
  intros HQ (k1 & Hp & H1). exists k1. split; [exact Hp|].
  intros c1. destruct (H1 c1) as (k2 & Hk1 & H2). exists k2. split; [exact Hk1|].
  intros c2. destruct (H2 c2) as (fi & k3 & Hk2 & H3). exists fi, k3.
  split; [exact Hk2|].
  intros values. destruct (H3 values) as (w' & Hk3 & Hc1 & Hc2 & Hq).
  exists w'. repeat split; auto.
Qed.

(** The data cell and the model cell, call by call. *)
Lemma cells_build_model (data : Data) (w : World) :
  builds_model ((load_num_relations data ;;; create_model) w)
    (length (unique (edge_type data)))
    (fun values w' =>
       num_relations w' = length (unique (edge_type data))
       /\ num_rels (model w') = length (unique (edge_type data))
       /\ w_rels (model w')
          = fill values (Tensor (length (unique (edge_type data))) 64)).
Proof.
  unfold builds_model, load_num_relations, create_model, RGCN_init, xavier_uniform_.
  cbn -[Tensor fill]. eexists. split; [reflexivity|].
  intros c1. cbn -[Tensor fill]. eexists. split; [reflexivity|].
  intros c2. cbn -[Tensor fill].
  replace (length (Tensor (length (unique (edge_type data))) 64))
    with (length (unique (edge_type data))) by (symmetry; apply repeat_length).
  do 2 eexists. split; [reflexivity|].
  intros values. cbn -[Tensor fill]. eexists. split; [reflexivity|].
  cbn -[Tensor fill]. repeat split.
Qed.

(** However the two cells end, a normal end is one of those above. *)
Lemma cells_end_normally_built (data : Data) (w : World) :
  Leaves (fun r =>
            fst r = Normal tt ->
            exists values,
              num_relations (snd r) = length (unique (edge_type data))
              /\ num_rels (model (snd r)) = length (unique (edge_type data))
              /\ w_rels (model (snd r))
                 = fill values (Tensor (length (unique (edge_type data))) 64))
         ((load_num_relations data ;;; create_model) w).
Proof.
  unfold load_num_relations, create_model, RGCN_init, xavier_uniform_.
  cbn -[Tensor fill].
  constructor. intros [c1|]; cbn -[Tensor fill]; [|constructor; cbn; discriminate].
  constructor. intros [c2|]; cbn -[Tensor fill]; [|constructor; cbn; discriminate].
  constructor. intros [values|]; cbn -[Tensor fill]; [|constructor; cbn; discriminate].
  constructor. cbn -[Tensor fill]. intros _. exists values. repeat split.
Qed.

(** C8.  The data cell and the model cell ask for two layers and for the
    draws of the relation weights, for as many relations as the loaded
    edge-type vector has distinct values, and once these three calls are
    answered the cells end normally: [num_relations] is the number of
    distinct values of the edge-type vector, the model was built for
    that many relations, and its relation weights [w_rels] have
    [num_relations] rows of [out_dim] = 64 entries.  The cells end
    normally in no other way. *)
Theorem w_rels_rows_follow_edge_types (data : Data) (w : World) :
  builds_model ((load_num_relations data ;;; create_model) w)
    (length (nodup Z.eq_dec (edge_type data)))
    (fun _ w' =>
       num_relations w' = length (nodup Z.eq_dec (edge_type data))
       /\ num_rels (model w') = num_relations w'
       /\ has_shape (w_rels (model w')) (num_relations w') 64)
  /\ Leaves (fun r =>
               fst r = Normal tt ->
               num_relations (snd r) = length (nodup Z.eq_dec (edge_type data))
               /\ num_rels (model (snd r)) = num_relations (snd r)
               /\ has_shape (w_rels (model (snd r))) (num_relations (snd r)) 64)
            ((load_num_relations data ;;; create_model) w).
Proof.
  rewrite <- unique_length. split.
  - eapply builds_model_weaken; [|apply cells_build_model].
    cbn. intros values w' (Hn & Hm & Hw). rewrite Hn, Hm, Hw.
    split; [reflexivity|]. split; [reflexivity|].
    exact (fill_shape values (length (unique (edge_type data))) 64).
  - eapply Leaves_impl; [|apply cells_end_normally_built].
    cbn. intros r Hr Hnormal. destruct (Hr Hnormal) as (values & Hn & Hm & Hw).
    rewrite Hn, Hm, Hw. split; [reflexivity|]. split; [reflexivity|].
    exact (fill_shape values (length (unique (edge_type data))) 64).
Qed.

(** With every library call answered, the two cells end normally: on the
    graph with relations 0 and 1 the weights get two rows. *)
Example create_model_on_whole_graph :
  let r := run (env_of (reference_library []))
               ((load_num_relations whole_graph ;;; create_model) toy_world) in
  fst r = Normal tt
  /\ num_relations (snd r) = 2
  /\ length (w_rels (model (snd r))) = 2.
Proof. repeat split. Qed.

(** ** The loss over the reals *)

Lemma bce_term_nonneg (p y : R) :
  (0 < p < 1)%R -> y = 0%R \/ y = 1%R -> (0 <= bce_term p y)%R.
Proof.
  intros [Hp0 Hp1] Hy. unfold bce_term.
  assert (ln p < 0)%R as Hl.
  { rewrite <- ln_1. apply ln_increasing; lra. }
  assert (ln (1 - p) < 0)%R as Hl'.
  { rewrite <- ln_1. apply ln_increasing; lra. }
  assert (Rmax (ln p) (-100) <= 0)%R by (apply Rmax_lub; lra).
  assert (Rmax (ln (1 - p)) (-100) <= 0)%R by (apply Rmax_lub; lra).
  destruct Hy as [-> | ->]; lra.
Qed.

Lemma DistMult_open_unit embed edge_index edge_type model probs :
  DistMult embed edge_index edge_type model = Some probs ->
  Forall (fun p => (0 < p < 1)%R) probs.
Proof.
  unfold DistMult.
  destruct (index_select embed (map fst edge_index)) as [s|]; [|discriminate].
  destruct (index_select embed (map snd edge_index)) as [o|]; [|discriminate].
  destruct (index_select (w_rels model) edge_type) as [r|]; [|discriminate].
  simpl.
  destruct (mul s r) as [sr|]; [|discriminate]. simpl.
  destruct (mul sr o) as [sro|]; [|discriminate]. simpl.
  intros [= <-]. apply Forall_map, Forall_forall. intros v _. apply sigmoid_range.
Qed.

(** Over the reals, the loss of a step on a batch that is not empty, the
    binary cross-entropy of the decoder's probabilities against labels
    that are 0 or 1, is not negative. *)
Lemma get_metrics_loss_nonneg model embed edge_index edge_type labels loss probs labels' :
  labels <> [] ->
  Forall (fun y => y = 0%R \/ y = 1%R) labels ->
  get_metrics model embed edge_index edge_type labels = Some (loss, probs, labels') ->
  (0 <= loss)%R.
Proof.
  intros Hne Hlab. unfold get_metrics.
  destruct (DistMult embed edge_index edge_type model) as [ps|] eqn:Ed;
    [|discriminate].
  simpl. unfold binary_cross_entropy.
  destruct (length ps =? length labels) eqn:El; [|discriminate]. simpl.
  intros [= <- _ _].
  apply Nat.eqb_eq in El. apply DistMult_open_unit in Ed.
  assert (0 <= sum_list (map (fun py => bce_term (fst py) (snd py))
                             (combine ps labels)))%R as Hsum.
  { clear - Ed Hlab. revert labels Hlab.
    induction Ed as [|p ps Hp _ IH]; intros [|y labels] Hlab; simpl; try lra.
    inversion Hlab; subst.
    pose proof (bce_term_nonneg Hp H1). specialize (IH labels H2). lra. }
  apply Rmult_le_pos; [exact Hsum|].
  left. apply Rinv_0_lt_compat, lt_0_INR.
  destruct labels; [congruence | simpl in El; lia].
Qed.

(** * Further properties of the code *)

(** ** The decoder: index errors *)

Lemma py_get_some A (t : list A) i a :
  py_get t i = Some a -> in_range (length t) i /\ In a t.
Proof.
  unfold py_get, norm_index, in_range.
  destruct ((0 <=? i) && (i <? Z.of_nat (length t)))%Z eqn:E1.
  - apply andb_prop in E1 as [H0 H1].
    apply Z.leb_le in H0. apply Z.ltb_lt in H1.
    intros H. split; [lia | eapply nth_error_In; eauto].
  - destruct ((- Z.of_nat (length t) <=? i) && (i <? 0))%Z eqn:E2; [|discriminate].
    apply andb_prop in E2 as [H0 H1].
    apply Z.leb_le in H0. apply Z.ltb_lt in H1.
    intros H. split; [lia | eapply nth_error_In; eauto].
Qed.

Lemma mapM_Forall2 A B (f : A -> option B) l l' :
  Opt.mapM f l = Some l' -> Forall2 (fun a b => f a = Some b) l l'.
Proof.
  revert l'; induction l as [|a l IH]; simpl; intros l' H.
  - inversion H. constructor.
  - destruct (f a) eqn:Ea; [|discriminate].
    destruct (Opt.mapM f l); [|discriminate].
    inversion H; subst. constructor; auto.
Qed.

Lemma index_select_some A (t : list A) idx rows :
  index_select t idx = Some rows ->
  length rows = length idx
  /\ Forall (in_range (length t)) idx
  /\ Forall (fun a => In a t) rows.
Proof.
  intros H. split; [eapply mapM_length; eauto|].
  apply mapM_Forall2 in H.
  induction H as [|i a idx rows Hi _ [IH1 IH2]]; [split; constructor|].
  apply py_get_some in Hi as [Hr Hin]. split; constructor; assumption.
Qed.

(** X1.  DistMult answers only when every endpoint of every edge
    addresses a row of the embedding and every relation type a row of
    w_rels, in the Python sense (from minus the number of rows up to, not
    including, the number of rows): one index outside raises. *)
Theorem DistMult_index_error (embed : Matrix) (edge_index : EdgeIndex)
    (edge_type : list Z) (model : RGCN) (probs : list R) :
  DistMult embed edge_index edge_type model = Some probs ->
  Forall (fun e => in_range (length embed) (fst e)
                   /\ in_range (length embed) (snd e)) edge_index
  /\ Forall (in_range (length (w_rels model))) edge_type.
Proof.
  unfold DistMult.
  destruct (index_select embed (map fst edge_index)) as [s|] eqn:Es; [|discriminate].
  destruct (index_select embed (map snd edge_index)) as [o|] eqn:Eo; [|discriminate].
  destruct (index_select (w_rels model) edge_type) as [r|] eqn:Er; [|discriminate].
  intros _.
  apply index_select_some in Es as (_ & Hs & _).
  apply index_select_some in Eo as (_ & Ho & _).
  apply index_select_some in Er as (_ & Hr & _).
  split; [|exact Hr].
  rewrite Forall_map in Hs, Ho. rewrite Forall_forall in *.
  intros e He. split; auto.
Qed.

Lemma DistMult_index_error_witness :
  Forall (fun e => in_range (length example_embed) (fst e)
                   /\ in_range (length example_embed) (snd e)) [(0, -1)%Z]
  /\ Forall (in_range (length (w_rels example_model))) [0%Z].
Proof.
  eapply (@DistMult_index_error example_embed [(0, -1)%Z] [0%Z] example_model).
  reflexivity.
Defined.

(** An index one past the last row raises. *)
Example DistMult_out_of_range :
  DistMult example_embed [(0, 2)%Z] [0%Z] example_model = None
  /\ DistMult example_embed [(0, 1)%Z] [1%Z] example_model = None
  /\ DistMult example_embed [(-3, 1)%Z] [0%Z] example_model = None.
Proof. repeat split. Qed.

(** ** The label vector at its edges *)

Lemma skipn_repeat_same A (v : A) k n : skipn k (repeat v n) = repeat v (n - k).
Proof.
  revert k; induction n as [|n IH]; intros [|k]; simpl; try reflexivity.
  apply IH.
Qed.

(** X3.  get_link_labels raises exactly when the two lengths sum to a
    negative number.  Otherwise the labels are p + n entries, ones first
    and zeros after; the number of ones follows the Python slice [:p]:
    min(p, p + n) for p >= 0, and for a negative p all but the last -p
    entries. *)
Theorem get_link_labels_shape (p n : Z) :
  (get_link_labels p n = None <-> (p + n < 0)%Z)
  /\ forall labels,
      get_link_labels p n = Some labels ->
      exists ones,
        labels = repeat 1%R ones ++ repeat 0%R (Z.to_nat (p + n) - ones)
        /\ ones <= Z.to_nat (p + n)
        /\ Z.of_nat ones
           = (if p <? 0 then Z.max 0 (2 * p + n) else Z.min p (p + n))%Z.
Proof.
  unfold get_link_labels, zeros.
  destruct (p + n <? 0)%Z eqn:E; cbn [Opt.bind].
  - apply Z.ltb_lt in E. split; [tauto | discriminate].
  - apply Z.ltb_ge in E. split; [split; [discriminate | lia]|].
    intros labels [= <-]. unfold assign_slice_to.
    rewrite repeat_length, skipn_repeat_same.
    exists (slice_stop (Z.to_nat (p + n)) p). split; [reflexivity|].
    unfold slice_stop. destruct (p <? 0)%Z eqn:Ep.
    + apply Z.ltb_lt in Ep. split; lia.
    + apply Z.ltb_ge in Ep. split; lia.
Qed.

Example get_link_labels_edges :
  get_link_labels (-1) 0 = None
  /\ get_link_labels 0 0 = Some []
  /\ get_link_labels (-1) 3 = Some [1; 0]%R
  /\ get_link_labels 3 (-1) = Some [1; 1]%R.
Proof. repeat split. Qed.

(** ** Steps that cannot succeed *)

Lemma mapM2_length A B C (f : A -> B -> option C) la lb lc :
  Opt.mapM2 f la lb = Some lc -> length lc = Nat.min (length la) (length lb).
Proof.
  revert lb lc; induction la as [|a la IH]; intros [|b lb] lc; simpl;
    try (intros [= <-]; reflexivity).
  destruct (f a b); [|discriminate].
  destruct (Opt.mapM2 f la lb) as [cs|] eqn:E; [|discriminate].
  intros [= <-]. simpl. now rewrite (IH _ _ E).
Qed.

Lemma broadcast_length A C (f : A -> A -> option C) a b c :
  broadcast f a b = Some c ->
  (length a = length b /\ length c = length a)
  \/ (length a = 1 /\ length c = length b)
  \/ (length b = 1 /\ length c = length a).
Proof.
  unfold broadcast. destruct (length a =? length b) eqn:E.
  - apply Nat.eqb_eq in E. intros H. apply mapM2_length in H. left. lia.
  - destruct a as [|u [|u' a]].
    + destruct b as [|v [|v' b]]; try discriminate.
      intros [= <-]. right; right. split; reflexivity.
    + intros H. apply mapM_length in H. right; left. split; [reflexivity | exact H].
    + destruct b as [|v [|v' b]]; try discriminate.
      intros H. apply mapM_length in H. right; right. split; [reflexivity | exact H].
Qed.

Lemma DistMult_length embed edge_index edge_type model probs :
  DistMult embed edge_index edge_type model = Some probs ->
  length edge_type <> length edge_index ->
  length probs <> length edge_index
  \/ length edge_type = 1 \/ (length edge_index = 1 /\ length probs = length edge_type).
Proof.
  unfold DistMult.
  destruct (index_select embed (map fst edge_index)) as [s|] eqn:Es; [|discriminate].
  destruct (index_select embed (map snd edge_index)) as [o|] eqn:Eo; [|discriminate].
  destruct (index_select (w_rels model) edge_type) as [r|] eqn:Er; [|discriminate].
  simpl.
  destruct (mul s r) as [sr|] eqn:Esr; [|discriminate]. simpl.
  destruct (mul sr o) as [sro|] eqn:Esro; [|discriminate]. simpl.
  intros [= <-] Hne. unfold sum_dim1. rewrite !length_map.
  apply index_select_some in Es as (Ls & _). apply index_select_some in Eo as (Lo & _).
  apply index_select_some in Er as (Lr & _). rewrite length_map in Ls, Lo.
  apply broadcast_length in Esr, Esro. lia.
Qed.

(** When the sampler answers more edges than there are positive edges,
    the types run out and the metrics of the batch raise. *)
Lemma get_metrics_surplus model embed (pos neg : EdgeIndex) (tys : list Z) :
  length tys = length pos -> length pos < length neg ->
  get_metrics model embed (pos ++ neg) (tys ++ firstn (length neg) tys)
              (repeat 1%R (length pos) ++ repeat 0%R (length neg)) = None.
Proof.
  intros Hlen Hlt.
  destruct (get_metrics _ _ _ _ _) as [[[loss probs] labels]|] eqn:E;
    [exfalso | reflexivity].
  unfold get_metrics in E.
  destruct (DistMult _ _ _ _) as [ps|] eqn:Ed; [|discriminate]. simpl in E.
  destruct (binary_cross_entropy _ _) as [l|] eqn:Eb; [|discriminate].
  apply binary_cross_entropy_length in Eb.
  rewrite length_app, !repeat_length in Eb.
  apply DistMult_length in Ed;
    rewrite !length_app, length_firstn in *; lia.
Qed.

(** X5.  A step whose mask selects exactly one edge cannot succeed:
    squeezing the one-row type column leaves a 0-dim tensor, which can be
    neither sliced nor concatenated.  The step asks the sampler for one
    negative edge and then raises whatever the answer, with no list and
    no parameter changed. *)
Theorem single_edge_step_raises (data : Data) (embed : Matrix) (evaluate_rel : bool)
    (w : World) :
  (forall e t,
      masked_select (edge_index data) (train_mask data) = Some [e] ->
      masked_select (edge_type data) (train_mask data) = Some [t] ->
      exists k, train data embed w = Vis (negative_sampling [e] 1) k
                /\ forall a, k a = Ret (Raised, w))
  /\ (forall e t,
         masked_select (edge_index data) (val_mask data) = Some [e] ->
         masked_select (edge_type data) (val_mask data) = Some [t] ->
         exists k, validation data embed evaluate_rel w = Vis (negative_sampling [e] 1) k
                   /\ forall a, k a = Ret (Raised, w)).
Proof.
  split; intros e t He Ht.
  - unfold train. rewrite He, Ht. cbn. eexists. split; [reflexivity|].
    intros [neg|]; reflexivity.
  - unfold validation. rewrite He, Ht. cbn. eexists. split; [reflexivity|].
    intros [neg|]; reflexivity.
Qed.

Lemma single_edge_step_raises_witness :
  (exists k, train single_edge_batch [[0]; [0]]%R toy_world
             = Vis (negative_sampling [(0, 1)%Z] 1) k
             /\ forall a, k a = Ret (Raised, toy_world))
  /\ (exists k, validation single_edge_batch [[0]; [0]]%R true toy_world
                = Vis (negative_sampling [(1, 0)%Z] 1) k
                /\ forall a, k a = Ret (Raised, toy_world)).
Proof.
  split.
  - apply (proj1 (single_edge_step_raises single_edge_batch [[0]; [0]]%R true toy_world)
             (0, 1)%Z 0%Z); reflexivity.
  - apply (proj2 (single_edge_step_raises single_edge_batch [[0]; [0]]%R true toy_world)
             (1, 0)%Z 1%Z); reflexivity.
Defined.

(** X6.  The types of the negative edges are a prefix of the types of
    the positive edges, so at most as many as those: when the sampler
    answers more negative edges than the mask selected positive edges,
    the step raises before any metric, with no list and no parameter
    changed. *)
Theorem surplus_negatives_raise (data : Data) (embed : Matrix) (evaluate_rel : bool)
    (w : World) :
  (forall pos tys,
      masked_select (edge_index data) (train_mask data) = Some pos ->
      masked_select (edge_type data) (train_mask data) = Some tys ->
      exists k, train data embed w = Vis (negative_sampling pos (size1 pos)) k
                /\ forall neg, length pos < length neg ->
                               k (Some neg) = Ret (Raised, w))
  /\ (forall pos tys,
         masked_select (edge_index data) (val_mask data) = Some pos ->
         masked_select (edge_type data) (val_mask data) = Some tys ->
         exists k, validation data embed evaluate_rel w
                   = Vis (negative_sampling pos (size1 pos)) k
                   /\ forall neg, length pos < length neg ->
                                  k (Some neg) = Ret (Raised, w)).
Proof.
  split; intros pos tys Hpos Htys;
    pose proof (@masked_select_same_length _ _ _ _ _ _ _ Htys Hpos) as Hlen.
  - unfold train. rewrite Hpos, Htys. cbn. eexists. split; [reflexivity|].
    intros neg Hlt. cbn.
    destruct (squeeze tys) as [z|l] eqn:Es; cbn; [reflexivity|].
    apply squeeze_vector in Es; subst l.
    unfold size1. rewrite get_link_labels_eq by lia.
    rewrite slice_to_firstn, !Nat2Z.id. cbn.
    now rewrite get_metrics_surplus.
  - unfold validation. rewrite Hpos, Htys. cbn. eexists. split; [reflexivity|].
    intros neg Hlt. cbn.
    destruct (squeeze tys) as [z|l] eqn:Es; cbn; [reflexivity|].
    apply squeeze_vector in Es; subst l.
    unfold size1. rewrite get_link_labels_eq by lia.
    rewrite slice_to_firstn, !Nat2Z.id. cbn.
    now rewrite get_metrics_surplus.
Qed.

Lemma surplus_negatives_raise_witness :
  (exists k, train dense_batch [[0]; [0]]%R toy_world
             = Vis (negative_sampling [(0, 0); (0, 1); (1, 0)]%Z 3) k
             /\ forall neg, 3 < length neg -> k (Some neg) = Ret (Raised, toy_world))
  /\ (exists k, validation dense_batch [[0]; [0]]%R true toy_world
                = Vis (negative_sampling [(0, 0); (0, 1); (1, 0)]%Z 3) k
                /\ forall neg, 3 < length neg -> k (Some neg) = Ret (Raised, toy_world)).
Proof.
  split.
  - apply (proj1 (surplus_negatives_raise dense_batch [[0]; [0]]%R true toy_world)
             [(0, 0); (0, 1); (1, 0)]%Z [0; 1; 0]%Z); reflexivity.
  - apply (proj2 (surplus_negatives_raise dense_batch [[0]; [0]]%R true toy_world)
             [(0, 0); (0, 1); (1, 0)]%Z [0; 1; 0]%Z); reflexivity.
Defined.

(** ** What a step leaves behind *)

Ltac leaf_raised := constructor; cbn; discriminate.

(** X7.  In any environment, a training step that ends normally has
    appended exactly one value to loss_epoch_train, the loss get_metrics
    computed for the positive edges followed by the edges the sampler
    answered, and one value to auroc_epoch_train, the answer of
    roc_auc_score on the labels and probabilities of that batch, and has
    installed the model the optimizer answered for the current model;
    every other global is as before.  And the step does end normally, in
    that state, whenever the mask selects other than one edge, the
    metrics of the batch are computed and every library call is
    answered. *)
Theorem train_post (env : Env) (data : Data) (embed : Matrix) (w : World) :
  let r := run env (train data embed w) in
  (fst r = Normal tt ->
   exists pos tys neg loss probs labels a model',
     masked_select (edge_index data) (train_mask data) = Some pos
     /\ masked_select (edge_type data) (train_mask data) = Some tys
     /\ env _ (negative_sampling pos (size1 pos)) = Some neg
     /\ get_metrics (model w) embed (pos ++ neg)
                    (tys ++ firstn (length neg) tys) (link_labels_of pos neg)
        = Some (loss, probs, labels)
     /\ env _ (roc_auc_score labels probs) = Some a
     /\ env _ (optimizer_step (model w)) = Some model'
     /\ snd r = set_model model'
                  (append_auroc_epoch_train a (append_loss_epoch_train loss w)))
  /\ (forall pos tys neg loss probs labels a b model',
         masked_select (edge_index data) (train_mask data) = Some pos ->
         masked_select (edge_type data) (train_mask data) = Some tys ->
         length tys <> 1 ->
         env _ (negative_sampling pos (size1 pos)) = Some neg ->
         get_metrics (model w) embed (pos ++ neg)
                     (tys ++ firstn (length neg) tys) (link_labels_of pos neg)
         = Some (loss, probs, labels) ->
         env _ (roc_auc_score labels probs) = Some a ->
         env _ (average_precision_score labels probs) = Some b ->
         env _ (backward loss) = Some tt ->
         env _ (optimizer_step (model w)) = Some model' ->
         fst r = Normal tt
         /\ snd r = set_model model'
                      (append_auroc_epoch_train a (append_loss_epoch_train loss w))).
Proof.
  cbv zeta. split.
  - unfold train.
    destruct (masked_select (edge_index data) (train_mask data)) as [pos|] eqn:Hpos;
      cbn; [|discriminate].
    destruct (masked_select (edge_type data) (train_mask data)) as [tys|] eqn:Htys;
      cbn; [|discriminate].
    destruct (env _ (negative_sampling pos (size1 pos))) as [neg|] eqn:En;
      cbn; [|discriminate].
    destruct (squeeze tys) as [z|l] eqn:Es; cbn; [discriminate|].
    apply squeeze_vector in Es; subst l.
    unfold size1. rewrite get_link_labels_eq by lia.
    rewrite slice_to_firstn, !Nat2Z.id. cbn.
    fold (link_labels_of pos neg).
    destruct (get_metrics _ _ _ _ _) as [[[loss probs] labels]|] eqn:Em; cbn;
      [|discriminate].
    destruct (env _ (roc_auc_score labels probs)) as [a|] eqn:Ea;
      cbn; [|discriminate].
    destruct (env _ (average_precision_score labels probs)) as [b|] eqn:Eb;
      cbn; [|discriminate].
    destruct (env _ (backward loss)) as [[]|] eqn:Ebk; cbn; [|discriminate].
    destruct (env _ (optimizer_step (model w))) as [m'|] eqn:Eo;
      cbn; [|discriminate].
    intros _. exists pos, tys, neg, loss, probs, labels, a, m'.
    repeat split; assumption.
  - intros pos tys neg loss probs labels a b m' Hpos Htys Hone En Em Ea Eb Ebk Eo.
    unfold train. rewrite Hpos, Htys. cbn. rewrite En. cbn.
    rewrite squeeze_not_single by assumption. cbn.
    unfold size1. rewrite get_link_labels_eq by lia.
    rewrite slice_to_firstn, !Nat2Z.id. cbn.
    fold (link_labels_of pos neg). rewrite Em. cbn.
    rewrite Ea. cbn. rewrite Eb. cbn. rewrite Ebk. cbn. rewrite Eo. cbn.
    split; reflexivity.
Qed.

Lemma train_post_witness :
  exists loss,
    fst (run (env_of stepping_library) (train dense_batch [[0]; [0]]%R toy_world))
    = Normal tt
    /\ snd (run (env_of stepping_library) (train dense_batch [[0]; [0]]%R toy_world))
       = set_model example_model
           (append_auroc_epoch_train (1 / 2)%R (append_loss_epoch_train loss toy_world)).
Proof.
  eexists.
  eapply (proj2 (train_post (env_of stepping_library) dense_batch [[0]; [0]]%R
                   toy_world)
            [(0, 0); (0, 1); (1, 0)]%Z [0; 1; 0]%Z [(1, 1)%Z]);
    try reflexivity.
  simpl. lia.
Defined.

Lemma per_relation_preserves T (f : World -> T) rels edge_types probs labels :
  (forall d w, f (set_auroc_edge_type d w) = f w) ->
  preserves f (per_relation rels edge_types probs labels).
Proof.
  intros Hf. induction rels as [|i rels IH]; simpl.
  - apply preserves_ret.
  - destruct (mask_sum _ =? 0); [exact IH|].
    repeat (apply preserves_bind; [solve [auto with frame] | intros ?]).
    apply preserves_bind; [apply preserves_modify; intros; apply Hf | intros _].
    exact IH.
Qed.

(** X8.  A validation step that ends normally has appended exactly one
    value to loss_epoch_val, the loss get_metrics computed, and one value
    to auroc_epoch_val; without evaluate_rel nothing else has changed. *)
Theorem validation_post (data : Data) (embed : Matrix) (evaluate_rel : bool)
    (w : World) :
  Leaves (fun r =>
            fst r = Normal tt ->
            exists pos tys neg loss probs labels a,
              masked_select (edge_index data) (val_mask data) = Some pos
              /\ masked_select (edge_type data) (val_mask data) = Some tys
              /\ get_metrics (model w) embed (pos ++ neg)
                             (tys ++ firstn (length neg) tys)
                             (repeat 1%R (length pos) ++ repeat 0%R (length neg))
                 = Some (loss, probs, labels)
              /\ loss_epoch_val (snd r) = loss_epoch_val w ++ [loss]
              /\ auroc_epoch_val (snd r) = auroc_epoch_val w ++ [a]
              /\ (evaluate_rel = false ->
                  snd r = append_auroc_epoch_val a (append_loss_epoch_val loss w)))
         (validation data embed evaluate_rel w).
Proof.
  unfold validation.
  destruct (masked_select (edge_index data) (val_mask data)) as [pos|] eqn:Hpos;
    cbn; [|leaf_raised].
  destruct (masked_select (edge_type data) (val_mask data)) as [tys|] eqn:Htys;
    cbn; [|leaf_raised].
  constructor. intros [neg|]; cbn; [|leaf_raised].
  destruct (squeeze tys) as [z|l] eqn:Es; cbn; [leaf_raised|].
  apply squeeze_vector in Es; subst l.
  unfold size1. rewrite get_link_labels_eq by lia.
  rewrite slice_to_firstn, !Nat2Z.id. cbn.
  destruct (get_metrics _ _ _ _ _) as [[[loss probs] labels]|] eqn:Em; cbn;
    [|leaf_raised].
  constructor. intros [a|]; cbn; [|leaf_raised].
  constructor. intros [b|]; cbn; [|leaf_raised].
  destruct evaluate_rel; cbn.
  - eapply Leaves_impl;
      [|apply (@per_relation_preserves _
                 (fun w => (loss_epoch_val w, auroc_epoch_val w)))].
    + cbn. intros r [= Hl Ha] _.
      exists pos, tys, neg, loss, probs, labels, a.
      repeat split; try assumption. discriminate.
    + reflexivity.
  - constructor. intros _. cbn.
    exists pos, tys, neg, loss, probs, labels, a. repeat split. exact Em.
Qed.

Lemma preserves_modify2 T B (f : World -> T) (g1 g2 : World -> World) (k : M B) :
  (forall w, f (g2 (g1 w)) = f w) ->
  preserves f k ->
  preserves f (bind (modify g1) (fun _ => bind (modify g2) (fun _ => k))).
Proof.
  intros Hg Hk w. cbn.
  eapply Leaves_impl; [|apply (Hk (g2 (g1 w)))].
  cbn. intros r ->. apply Hg.
Qed.

Lemma alignment_append_train loss a w :
  alignment (append_auroc_epoch_train a (append_loss_epoch_train loss w)) = alignment w.
Proof.
  destruct w. unfold alignment. cbn. rewrite !length_app. cbn. f_equal. lia.
Qed.

Lemma alignment_append_val loss a w :
  alignment (append_auroc_epoch_val a (append_loss_epoch_val loss w)) = alignment w.
Proof.
  destruct w. unfold alignment. cbn. rewrite !length_app. cbn. f_equal. lia.
Qed.

(** X9.  However a training or a validation step ends, normally or by an
    exception at any point, the loss list and the AUROC list of the
    epoch stay in step: a step appends to both or to neither, so equally
    long lists stay equally long. *)
Theorem steps_keep_lists_aligned (data : Data) (embed : Matrix) (evaluate_rel : bool) :
  preserves alignment (train data embed)
  /\ preserves alignment (validation data embed evaluate_rel).
Proof.
  split.
  - unfold train.
    repeat first [ apply preserves_modify2; [intros; apply alignment_append_train|]
                 | frame_step ].
  - unfold validation.
    repeat first [ apply preserves_modify2; [intros; apply alignment_append_val|]
                 | frame_step ].
    apply per_relation_preserves. intros d []. reflexivity.
Qed.

(** X10.  What the steps never touch, however they end: a training step
    leaves the validation lists, the per-relation dict, num_relations and
    the loader as they are; a validation step leaves the training lists,
    num_relations and the loader as they are, and without evaluate_rel
    the per-relation dict too. *)
Theorem steps_frame (data : Data) (embed : Matrix) (evaluate_rel : bool) :
  preserves (fun w => (num_relations w, data_loader w, loss_epoch_val w,
                       auroc_epoch_val w, auroc_edge_type w))
            (train data embed)
  /\ preserves (fun w => (num_relations w, data_loader w, loss_epoch_train w,
                          auroc_epoch_train w))
               (validation data embed evaluate_rel)
  /\ preserves auroc_edge_type (validation data embed false).
Proof.
  split; [|split].
  - unfold train. repeat frame_step.
  - unfold validation. repeat frame_step.
    apply per_relation_preserves. intros d []. reflexivity.
  - unfold validation. cbn [negb]. repeat frame_step.
Qed.

Example train_dense_batch_ends_normally :
  fst (run (env_of (reference_library []))
         (train dense_batch [[0]; [0]]%R toy_world)) = Normal tt
  /\ fst (run (env_of (reference_library []))
            (validation dense_batch [[0]; [0]]%R false toy_world)) = Normal tt.
Proof. split; reflexivity. Qed.

(** ** The per-relation dict *)

Lemma Leaves_Ret_inv B (Q : B -> Prop) (b : B) : Leaves Q (Ret b) -> Q b.
Proof.
  intros H.
  exact (match H in Leaves _ p
               return match p with Ret b' => Q b' | Vis _ _ => True end
         with
         | @Leaves_Ret _ _ _ Hb => Hb
         | @Leaves_Vis _ _ _ _ _ _ => I
         end).
Qed.

Lemma Leaves_Vis_inv B (Q : B -> Prop) X (e : Ext X) (k : option X -> Prog B) :
  Leaves Q (Vis e k) -> forall a, Leaves Q (k a).
Proof.
  intros H.
  exact (match H in Leaves _ p
               return match p with
                      | Ret _ => True
                      | Vis _ k' => forall a, Leaves Q (k' a)
                      end
         with
         | @Leaves_Ret _ _ _ _ => I
         | @Leaves_Vis _ _ _ _ _ Hk => Hk
         end).
Qed.

Lemma Leaves_conj B (Q1 Q2 : B -> Prop) (p : Prog B) :
  Leaves Q1 p -> Leaves Q2 p -> Leaves (fun b => Q1 b /\ Q2 b) p.
Proof.
  induction 1 as [b Hb | X e k _ IH]; intros H2.
  - apply Leaves_Ret_inv in H2. now constructor.
  - constructor. intros a. apply IH. exact (Leaves_Vis_inv H2 a).
Qed.

Lemma Leaves_true B (Q : B -> Prop) (p : Prog B) :
  (forall b, Q b) -> Leaves Q p.
Proof.
  intros HQ. induction p as [b | X e k IH]; constructor; auto.
Qed.

Lemma Leaves_forall B I (Q : I -> B -> Prop) (p : Prog B) :
  (forall i, Leaves (Q i) p) -> Leaves (fun b => forall i, Q i b) p.
Proof.
  induction p as [b | X e k IH]; intros H; constructor.
  - intros i. exact (Leaves_Ret_inv (H i)).
  - intros a. apply IH. intros i. exact (Leaves_Vis_inv (H i) a).
Qed.

Lemma dict_append_same d i a d' :
  dict_append d i a = Some d' ->
  exists vs, dict_get d i = Some vs /\ dict_get d' i = Some (vs ++ [a]).
Proof.
  revert d'; induction d as [|[k vs] d IH]; simpl; intros d' H; [discriminate|].
  destruct (k =? i) eqn:E.
  - inversion H; subst. simpl. rewrite E. now exists vs.
  - destruct (dict_append d i a) as [d''|]; [|discriminate].
    inversion H; subst. simpl. rewrite E. now apply IH.
Qed.

Lemma dict_append_keys d i a d' :
  dict_append d i a = Some d' -> map fst d' = map fst d.
Proof.
  revert d'; induction d as [|[k vs] d IH]; simpl; intros d' H; [discriminate|].
  destruct (k =? i).
  - inversion H; subst. reflexivity.
  - destruct (dict_append d i a) as [d''|]; [|discriminate].
    inversion H; subst. simpl. f_equal. now apply IH.
Qed.

Lemma dict_append_present d i a :
  dict_get d i <> None -> dict_append d i a <> None.
Proof.
  induction d as [|[k vs] d IH]; simpl; [congruence|].
  destruct (k =? i); [discriminate|].
  intros H. specialize (IH H). destruct (dict_append d i a); congruence.
Qed.

Lemma In_mask_sum (z : Z) (edge_types : list Z) :
  In z edge_types -> mask_sum (map (fun t => (t =? z)%Z) edge_types) <> 0.
Proof.
  unfold mask_sum. induction edge_types as [|t l IH]; simpl; [tauto|].
  intros [-> | H].
  - rewrite Z.eqb_refl. simpl. lia.
  - destruct (t =? z)%Z; simpl; [lia | now apply IH].
Qed.

(** The loop changes no entry of a relation index it does not visit. *)
Lemma per_relation_keeps_outside (j : nat) rels edge_types probs labels :
  ~ In j rels ->
  preserves (fun w => dict_get (auroc_edge_type w) j)
            (per_relation rels edge_types probs labels).
Proof.
  induction rels as [|i rels IH]; intros Hj w; simpl.
  - now constructor.
  - assert (j <> i) as Hne by (intros ->; apply Hj; now left).
    assert (~ In j rels) as Hj' by (intros H; apply Hj; now right).
    set (mask := map (fun t => (t =? Z.of_nat i)%Z) edge_types).
    destruct (mask_sum mask =? 0); [now apply IH|].
    destruct (masked_select probs mask) as [ys|]; cbn; [|now constructor].
    destruct (masked_select labels mask) as [yt|]; cbn; [|now constructor].
    constructor. intros [a|]; cbn; [|now constructor].
    destruct (dict_append (auroc_edge_type w) i a) as [d'|] eqn:Ed; cbn;
      [|now constructor].
    eapply Leaves_impl; [|apply (IH Hj')]. cbn. intros r ->.
    eapply dict_append_other; eassumption.
Qed.

(** On distinct relation indices, a loop that ends normally has grown
    the lists of the visited relations that have edges by one value each
    and has kept all other lists. *)
Lemma per_relation_grows (rels : list nat) (edge_types : list Z)
    (probs labels : list R) (w : World) :
  NoDup rels ->
  Leaves (fun r =>
            fst r = Normal tt ->
            forall i,
              (In i rels -> In (Z.of_nat i) edge_types ->
               exists a vs,
                 dict_get (auroc_edge_type w) i = Some vs
                 /\ dict_get (auroc_edge_type (snd r)) i = Some (vs ++ [a]))
              /\ (~ In i rels \/ ~ In (Z.of_nat i) edge_types ->
                  dict_get (auroc_edge_type (snd r)) i
                  = dict_get (auroc_edge_type w) i))
         (per_relation rels edge_types probs labels w).
Proof.
  intros Hnd.
  assert (Leaves (fun r =>
                    fst r = Normal tt ->
                    forall i, In i rels -> In (Z.of_nat i) edge_types ->
                      exists a vs,
                        dict_get (auroc_edge_type w) i = Some vs
                        /\ dict_get (auroc_edge_type (snd r)) i = Some (vs ++ [a]))
                 (per_relation rels edge_types probs labels w)) as Hgrow.
  { revert w. induction Hnd as [|i0 rels Hi0 Hnd IH]; intros w; simpl.
    - constructor. intros _ i [].
    - set (mask := map (fun t => (t =? Z.of_nat i0)%Z) edge_types).
      destruct (mask_sum mask =? 0) eqn:E.
      + apply Nat.eqb_eq in E.
        eapply Leaves_impl; [|apply IH]. cbn. intros r Hr Hn i [<- | Hi] Hin.
        * exfalso. now apply (In_mask_sum _ _ Hin).
        * now apply Hr.
      + destruct (masked_select probs mask) as [ys|]; cbn; [|leaf_raised].
        destruct (masked_select labels mask) as [yt|]; cbn; [|leaf_raised].
        constructor. intros [a|]; cbn; [|leaf_raised].
        destruct (dict_append (auroc_edge_type w) i0 a) as [d'|] eqn:Ed; cbn;
          [|leaf_raised].
        eapply Leaves_impl;
          [|apply Leaves_conj;
            [apply IH
            |apply (@per_relation_keeps_outside i0 rels edge_types probs labels Hi0)]].
        cbn. intros r [Hr Hk] Hn i [<- | Hi] Hin.
        * destruct (dict_append_same _ _ _ Ed) as (vs & Hvs & Hvs').
          exists a, vs. split; [exact Hvs | congruence].
        * destruct (Hr Hn i Hi Hin) as (a' & vs & Hvs & Hvs').
          exists a', vs. split; [|exact Hvs'].
          rewrite <- Hvs. symmetry. eapply dict_append_other; [eassumption|].
          intros ->. contradiction. }
  apply Leaves_impl
    with (Q := fun r =>
                 (fst r = Normal tt ->
                  forall i, In i rels -> In (Z.of_nat i) edge_types ->
                    exists a vs,
                      dict_get (auroc_edge_type w) i = Some vs
                      /\ dict_get (auroc_edge_type (snd r)) i = Some (vs ++ [a]))
                 /\ forall i,
                     ~ In i rels \/ ~ In (Z.of_nat i) edge_types ->
                     dict_get (auroc_edge_type (snd r)) i
                     = dict_get (auroc_edge_type w) i).
  { intros r [H1 H2] Hn i. split; [now apply H1 | apply H2]. }
  apply Leaves_conj; [exact Hgrow|].
  apply Leaves_forall. intros i.
  destruct (in_dec Nat.eq_dec i rels) as [Hin | Hout].
  - destruct (in_dec Z.eq_dec (Z.of_nat i) edge_types) as [Hin' | Hout'].
    + apply Leaves_true. intros r [H | H]; contradiction.
    + eapply Leaves_impl;
        [|apply (@per_relation_keeps i rels edge_types probs labels Hout' w)].
      intros r H _. exact H.
  - eapply Leaves_impl;
      [|apply (@per_relation_keeps_outside i rels edge_types probs labels Hout w)].
    intros r H _. exact H.
Qed.

(** X11.  A per-relation loop over distinct relation indices that ends
    normally has appended exactly one value to the list of every visited
    relation that some edge of the batch has, and has left every other
    list as it was. *)
Theorem per_relation_post (rels : list nat) (edge_types : list Z)
    (probs labels : list R) (w : World) :
  NoDup rels ->
  Leaves (fun r =>
            fst r = Normal tt ->
            forall i,
              (In i rels -> In (Z.of_nat i) edge_types ->
               exists a vs,
                 dict_get (auroc_edge_type w) i = Some vs
                 /\ dict_get (auroc_edge_type (snd r)) i = Some (vs ++ [a]))
              /\ (~ In i rels \/ ~ In (Z.of_nat i) edge_types ->
                  dict_get (auroc_edge_type (snd r)) i
                  = dict_get (auroc_edge_type w) i))
         (per_relation rels edge_types probs labels w).
Proof.
  apply per_relation_grows.
Qed.

Lemma per_relation_post_witness :
  Leaves (fun r =>
            fst r = Normal tt ->
            forall i,
              (In i (seq 0 3) -> In (Z.of_nat i) [1; 1]%Z ->
               exists a vs,
                 dict_get (auroc_edge_type reporting_world) i = Some vs
                 /\ dict_get (auroc_edge_type (snd r)) i = Some (vs ++ [a]))
              /\ (~ In i (seq 0 3) \/ ~ In (Z.of_nat i) [1; 1]%Z ->
                  dict_get (auroc_edge_type (snd r)) i
                  = dict_get (auroc_edge_type reporting_world) i))
         (per_relation (seq 0 3) [1; 1]%Z [0.25; 0.75]%R [1; 0]%R reporting_world).
Proof.
  apply (@per_relation_post (seq 0 3) [1; 1]%Z [0.25; 0.75]%R [1; 0]%R reporting_world).
  simpl. repeat (constructor; [simpl; lia|]). constructor.
Defined.

Example per_relation_on_reporting_world :
  let r := run (env_of (reference_library []))
               (per_relation (seq 0 3) [1; 1]%Z [0.25; 0.75]%R [1; 0]%R
                             reporting_world) in
  fst r = Normal tt
  /\ auroc_edge_type (snd r) = [(0, []); (1, [(1 / 2)%R]); (2, [])].
Proof. split; reflexivity. Qed.

Lemma masked_select_fits A (l : list A) (mask : list bool) :
  length l = length mask -> masked_select l mask <> None.
Proof.
  intros H. unfold masked_select. rewrite H, Nat.eqb_refl. discriminate.
Qed.

(** X12.  Run against libraries whose AUROC never raises, on
    probabilities and labels as long as the type vector and with every
    visited relation index a key of the dict, the per-relation loop ends
    normally: only the metric, a missing key or vectors of different
    lengths can make it raise. *)
Theorem per_relation_completes (env : Env) (rels : list nat) (edge_types : list Z)
    (probs labels : list R) (w : World) :
  (forall y_true y_score, env _ (roc_auc_score y_true y_score) <> None) ->
  length probs = length edge_types ->
  length labels = length edge_types ->
  (forall i, In i rels -> dict_get (auroc_edge_type w) i <> None) ->
  fst (run env (per_relation rels edge_types probs labels w)) = Normal tt.
Proof.
  intros Hroc Hp Hl. revert w.
  induction rels as [|i rels IH]; intros w Hkeys; simpl; [reflexivity|].
  set (mask := map (fun t => (t =? Z.of_nat i)%Z) edge_types).
  destruct (mask_sum mask =? 0).
  { apply IH. intros j Hj. apply Hkeys. now right. }
  assert (length probs = length mask) as Hpm by (unfold mask; now rewrite length_map).
  assert (length labels = length mask) as Hlm by (unfold mask; now rewrite length_map).
  destruct (masked_select probs mask) as [ys|] eqn:Ep;
    [|now apply masked_select_fits in Hpm].
  destruct (masked_select labels mask) as [yt|] eqn:El;
    [|now apply masked_select_fits in Hlm].
  cbn.
  destruct (env R (roc_auc_score yt ys)) as [a|] eqn:Ea; [|now apply Hroc in Ea].
  cbn.
  destruct (dict_append (auroc_edge_type w) i a) as [d'|] eqn:Ed.
  2:{ exfalso. eapply dict_append_present; [|exact Ed]. apply Hkeys. now left. }
  cbn. apply IH. cbn. intros j Hj.
  destruct (Nat.eq_dec j i) as [-> | Hne].
  - destruct (dict_append_same _ _ _ Ed) as (vs & _ & ->). discriminate.
  - rewrite (dict_append_other _ _ Ed Hne). apply Hkeys. now right.
Qed.

Lemma per_relation_completes_witness :
  fst (run (env_of (reference_library []))
         (per_relation (seq 0 3) [1; 1]%Z [0.25; 0.75]%R [1; 0]%R reporting_world))
  = Normal tt.
Proof.
  apply (@per_relation_completes (env_of (reference_library [])) (seq 0 3) [1; 1]%Z
           [0.25; 0.75]%R [1; 0]%R reporting_world).
  - intros yt ys. simpl. discriminate.
  - reflexivity.
  - reflexivity.
  - simpl. intros i [<- | [<- | [<- | []]]]; simpl; discriminate.
Defined.

(** A missing key makes the loop raise at the first relation it would
    evaluate. *)
Example per_relation_missing_key :
  fst (run (env_of (reference_library []))
         (per_relation (seq 0 3) [1; 1]%Z [0.25; 0.75]%R [1; 0]%R toy_world))
  = Raised.
Proof. reflexivity. Qed.

Lemma per_relation_keys rels edge_types probs labels :
  preserves (fun w => map fst (auroc_edge_type w))
            (per_relation rels edge_types probs labels).
Proof.
  induction rels as [|i rels IH]; intros w; simpl.
  - now constructor.
  - set (mask := map (fun t => (t =? Z.of_nat i)%Z) edge_types).
    destruct (mask_sum mask =? 0); [apply IH|].
    destruct (masked_select probs mask) as [ys|]; cbn; [|now constructor].
    destruct (masked_select labels mask) as [yt|]; cbn; [|now constructor].
    constructor. intros [a|]; cbn; [|now constructor].
    destruct (dict_append (auroc_edge_type w) i a) as [d'|] eqn:Ed; cbn;
      [|now constructor].
    eapply Leaves_impl; [|apply IH]. cbn. intros r ->.
    eapply dict_append_keys; eassumption.
Qed.

Lemma validation_keys data embed evaluate_rel :
  preserves (fun w => map fst (auroc_edge_type w)) (validation data embed evaluate_rel).
Proof.
  unfold validation. repeat frame_step. apply per_relation_keys.
Qed.

Lemma report_batches_keys batches :
  preserves (fun w => map fst (auroc_edge_type w)) (report_batches batches).
Proof.
  induction batches as [|batch batches IH]; simpl.
  - apply preserves_ret.
  - apply preserves_bind; [unfold get_embeddings; repeat frame_step|].
    intros embed. apply preserves_bind; [apply validation_keys|].
    intros _. exact IH.
Qed.

(** X13.  A validation step never adds, removes or reorders the keys of
    the per-relation dict, and the reporting cell, however it ends and
    whatever the dict held before, ends with exactly the keys
    0 .. num_relations-1, in this order. *)
Theorem report_keys (data : Data) (embed : Matrix) (evaluate_rel : bool) (w : World) :
  Leaves (fun r => map fst (auroc_edge_type (snd r)) = map fst (auroc_edge_type w))
         (validation data embed evaluate_rel w)
  /\ Leaves (fun r => map fst (auroc_edge_type (snd r)) = seq 0 (num_relations w))
            (report w).
Proof.
  split; [apply validation_keys|].
  unfold report. cbn. constructor. intros [batches|]; cbn.
  - eapply Leaves_impl; [|apply report_batches_keys]. cbn. intros r ->.
    rewrite map_map. cbn. apply map_id.
  - constructor. cbn. rewrite map_map. cbn. apply map_id.
Qed.

(** ** What the reporting cell averages *)





(** ** The number of relations *)

Lemma sorted_same_elements l l' :
  StronglySorted Z.lt l -> StronglySorted Z.lt l' ->
  (forall v, In v l <-> In v l') -> l = l'.
Proof.
  intros Hl. revert l'. induction Hl as [|a l Hs IH Ha]; intros l' Hl' Hin.
  - destruct l' as [|b l']; [reflexivity|].
    exfalso. apply (Hin b). now left.
  - destruct Hl' as [|b l' Hs' Hb].
    { exfalso. apply (Hin a). now left. }
    rewrite Forall_forall in Ha, Hb.
    assert (a = b) as ->.
    { assert (In a (b :: l')) as [H1 | H1] by (apply Hin; now left); [now subst|].
      assert (In b (a :: l)) as [H2 | H2] by (apply Hin; now left); [now subst|].
      specialize (Ha _ H2). specialize (Hb _ H1). lia. }
    f_equal. apply IH; [exact Hs'|].
    intros v. split; intros Hv.
    + assert (In v (b :: l')) as [H | H] by (apply Hin; now right); [|exact H].
      subst v. specialize (Ha _ Hv). lia.
    + assert (In v (b :: l)) as [H | H] by (apply Hin; now right); [|exact H].
      subst v. specialize (Hb _ Hv). lia.
Qed.

Lemma sorted_range n : StronglySorted Z.lt (map Z.of_nat (seq 0 n)).
Proof.
  generalize 0. induction n as [|n IH]; intros s; simpl; constructor.
  - apply IH.
  - apply Forall_forall. intros v Hv.
    apply in_map_iff in Hv as (k & <- & Hk). apply in_seq in Hk. lia.
Qed.

Lemma unique_of_range (l : list Z) (n : nat) :
  (forall t, In t l <-> (0 <= t < Z.of_nat n)%Z) ->
  unique l = map Z.of_nat (seq 0 n).
Proof.
  intros H. apply sorted_same_elements; [apply unique_sorted | apply sorted_range|].
  intros v. rewrite unique_In, H, in_map_iff. split.
  - intros Hv. exists (Z.to_nat v). split; [lia | apply in_seq; lia].
  - intros (k & <- & Hk). apply in_seq in Hk. lia.
Qed.

Lemma in_range_embeds (len : nat) (t : Z) :
  (0 <= t < Z.of_nat len)%Z -> in_range len t.
Proof. unfold in_range. lia. Qed.

(** X15.  When the edge types of the loaded graph are exactly the
    numbers 0 .. n-1, the cells ask for a model of n relations and, once
    the constructors and the initialiser have answered, end normally
    with one row of w_rels for each type: every edge type of the graph
    addresses a row of w_rels.  (The count of distinct types alone does
    not give this: with the types 0 and 2, w_rels has two rows and type 2
    addresses none.) *)
Theorem edge_types_index_w_rels (data : Data) (w : World) (n : nat) :
  (forall t, In t (edge_type data) <-> (0 <= t < Z.of_nat n)%Z) ->
  builds_model ((load_num_relations data ;;; create_model) w) n
    (fun _ w' =>
       num_relations w' = n
       /\ length (w_rels (model w')) = n
       /\ Forall (in_range (length (w_rels (model w')))) (edge_type data))
  /\ Leaves (fun r =>
               fst r = Normal tt ->
               num_relations (snd r) = n
               /\ length (w_rels (model (snd r))) = n
               /\ Forall (in_range (length (w_rels (model (snd r))))) (edge_type data))
            ((load_num_relations data ;;; create_model) w).
Proof.
  intros Htypes.
  assert (length (unique (edge_type data)) = n) as Hn.
  { rewrite (@unique_of_range _ n Htypes). now rewrite length_map, length_seq. }
  assert (forall values (m : RGCN),
             w_rels m = fill values (Tensor (length (unique (edge_type data))) 64) ->
             length (w_rels m) = n
             /\ Forall (in_range (length (w_rels m))) (edge_type data)) as Hrows.
  { intros values m Hw.
    destruct (fill_shape values (length (unique (edge_type data))) 64) as [Hlen _].
    rewrite <- Hw in Hlen. pose proof (eq_trans Hlen Hn) as Hl.
    split; [exact Hl|]. rewrite Hl.
    apply Forall_forall. intros t Ht. apply in_range_embeds. now apply Htypes. }
  split.
  - rewrite <- Hn at 1.
    eapply builds_model_weaken; [|apply cells_build_model].
    cbn. intros values w' (Hnr & _ & Hw).
    split; [congruence|]. exact (Hrows values (model w') Hw).
  - eapply Leaves_impl; [|apply cells_end_normally_built].
    cbn. intros r Hr Hnormal. destruct (Hr Hnormal) as (values & Hnr & _ & Hw).
    split; [congruence|]. exact (Hrows values (model (snd r)) Hw).
Qed.

Lemma edge_types_index_w_rels_witness :
  builds_model ((load_num_relations whole_graph ;;; create_model) toy_world) 2
    (fun _ w' =>
       num_relations w' = 2
       /\ length (w_rels (model w')) = 2
       /\ Forall (in_range (length (w_rels (model w')))) (edge_type whole_graph))
  /\ Leaves (fun r =>
               fst r = Normal tt ->
               num_relations (snd r) = 2
               /\ length (w_rels (model (snd r))) = 2
               /\ Forall (in_range (length (w_rels (model (snd r)))))
                         (edge_type whole_graph))
            ((load_num_relations whole_graph ;;; create_model) toy_world).
Proof.
  apply (@edge_types_index_w_rels whole_graph toy_world 2).
  intros t. simpl. lia.
Defined.

(** With the relation types 0 and 2 the cells build two rows, and an
    edge of type 2 cannot be scored. *)
Example gapped_types_raise :
  let r := run (env_of (reference_library []))
               ((load_num_relations gapped_graph ;;; create_model) toy_world) in
  num_relations (snd r) = 2
  /\ length (w_rels (model (snd r))) = 2
  /\ DistMult [[0]; [0]]%R (edge_index gapped_graph) (edge_type gapped_graph)
              (model (snd r)) = None.
Proof. repeat split. Qed.

(** X16.  The number of relations the data cell computes depends only
    on which values occur in the edge-type column, not on their order or
    on how often each occurs: two graphs with the same values get the
    same num_relations.  It never exceeds the number of edges, and it is
    0 only for a graph without edges. *)
Theorem num_relations_of_edge_types (data data' : Data) (w : World) :
  (forall v, In v (edge_type data) <-> In v (edge_type data')) ->
  load_num_relations data w = load_num_relations data' w
  /\ Leaves (fun r =>
               num_relations (snd r) <= length (edge_type data)
               /\ (num_relations (snd r) = 0 <-> edge_type data = []))
            (load_num_relations data w).
Proof.
  intros Hsame. split.
  - unfold load_num_relations.
    replace (unique (edge_type data')) with (unique (edge_type data));
      [reflexivity|].
    apply sorted_same_elements; try apply unique_sorted.
    intros v. now rewrite !unique_In.
  - unfold load_num_relations. constructor. cbn.
    rewrite unique_length. split.
    + apply NoDup_incl_length; [apply NoDup_nodup|].
      intros v Hv. now apply nodup_In in Hv.
    + split.
      * intros H. destruct (edge_type data) as [|t l]; [reflexivity|].
        exfalso. apply length_zero_iff_nil in H.
        assert (In t (nodup Z.eq_dec (t :: l))) as Hin by (apply nodup_In; now left).
        rewrite H in Hin. contradiction.
      * intros ->. reflexivity.
Qed.

Lemma num_relations_of_edge_types_witness :
  load_num_relations whole_graph toy_world = load_num_relations sampled_pair toy_world
  /\ Leaves (fun r =>
               num_relations (snd r) <= length (edge_type whole_graph)
               /\ (num_relations (snd r) = 0 <-> edge_type whole_graph = []))
            (load_num_relations whole_graph toy_world).
Proof.
  apply (@num_relations_of_edge_types whole_graph sampled_pair toy_world).
  intros v. simpl. lia.
Defined.

(** ** One relation type for many edges *)

Lemma mul_one_row (s : Matrix) (er : list R) (d : nat) :
  Forall (fun row => length row = d) s -> length er = d ->
  mul s [er] = Some (map (fun row => zip_mul row er) s).
Proof.
  intros Hs Her.
  assert (Opt.mapM (fun row => mul_row row er) s
          = Some (map (fun row => zip_mul row er) s)) as HmapM.
  { induction Hs as [|row s Hrow _ IH]; simpl; [reflexivity|].
    rewrite mul_row_same_length by congruence. now rewrite IH. }
  unfold mul, broadcast.
  destruct s as [|row [|row' s]]; simpl length; simpl Nat.eqb; cbv iota.
  - reflexivity.
  - simpl. inversion Hs; subst. rewrite mul_row_same_length by congruence.
    reflexivity.
  - exact HmapM.
Qed.

Lemma single_type_scores embed w (edge_index : EdgeIndex) (s o : Matrix)
    (er : list R) (r : Z) (d : nat) :
  Forall2 (fun i row => py_get embed i = Some row) (map fst edge_index) s ->
  Forall2 (fun i row => py_get embed i = Some row) (map snd edge_index) o ->
  py_get w r = Some er ->
  Forall (fun row => length row = d) embed -> length er = d ->
  map sigmoid
      (sum_dim1 (map (fun p => zip_mul (fst p) (snd p))
                     (combine (map (fun row => zip_mul row er) s) o)))
  = map (fun e => sigmoid (distmult_score embed w d (fst e) (snd e) r)) edge_index.
Proof.
  intros Hs Ho Hr Hemb Her. rewrite Forall_forall in Hemb.
  revert s o Hs Ho.
  induction edge_index as [|[u v] edges IH]; intros s o Hs Ho; simpl in Hs, Ho.
  - inversion Hs; inversion Ho; subst. reflexivity.
  - inversion Hs as [|iu ru lu s' Eu Hs']; inversion Ho as [|iv rv lv o' Ev Ho'].
    subst s o iu lu iv lv. simpl.
    f_equal; [|now apply IH].
    f_equal.
    pose proof (proj2 (py_get_some _ _ Eu)) as Iu.
    pose proof (proj2 (py_get_some _ _ Ev)) as Iv.
    rewrite (@triple_sum ru er rv d) by auto.
    unfold distmult_score. apply f_equal, map_ext. intros j.
    now rewrite (@entry_row embed u ru j), (@entry_row w r er j),
      (@entry_row embed v rv j).
Qed.

(** X17.  DistMult does not ask for one relation type per edge: given
    a single type r for any number of edges, broadcasting scores every
    edge under r, so the result is one probability per edge, the sigmoid
    of the DistMult score of that edge under r. *)
Theorem DistMult_single_type (embed : Matrix) (edge_index : EdgeIndex) (r : Z)
    (model : RGCN) (nodes dims rels : nat) :
  has_shape embed nodes dims ->
  has_shape (w_rels model) rels dims ->
  Forall (fun e => in_range nodes (fst e) /\ in_range nodes (snd e)) edge_index ->
  in_range rels r ->
  DistMult embed edge_index [r] model
  = Some (map (fun e => sigmoid (distmult_score embed (w_rels model) dims
                                   (fst e) (snd e) r))
              edge_index).
Proof.
  intros Hemb Hw Hedges Hr.
  pose proof Hemb as [Hn Hrows]. pose proof Hw as [Hrn Hwrows].
  destruct (@index_select_in_range _ embed (map fst edge_index))
    as (s & Hs & Hsl & Hsin & _).
  { rewrite Hn. apply Forall_map. eapply Forall_impl; [|exact Hedges]. now intros e []. }
  destruct (@index_select_in_range _ embed (map snd edge_index))
    as (o & Ho & Hol & Hoin & _).
  { rewrite Hn. apply Forall_map. eapply Forall_impl; [|exact Hedges]. now intros e []. }
  destruct (@py_get_in_range _ (w_rels model) r) as (er & Her & Hin).
  { now rewrite Hrn. }
  rewrite length_map in Hsl, Hol.
  assert (length er = dims) as Ler.
  { rewrite Forall_forall in Hwrows. now apply Hwrows. }
  assert (has_shape s (length edge_index) dims) as Ss
    by exact (rows_of_shape Hemb Hsl Hsin).
  assert (has_shape o (length edge_index) dims) as So
    by exact (rows_of_shape Hemb Hol Hoin).
  unfold DistMult. rewrite Hs, Ho. simpl. unfold index_select. simpl. rewrite Her.
  simpl. destruct Ss as [Ls Fs].
  rewrite (@mul_one_row s er dims Fs Ler). simpl.
  assert (has_shape (map (fun row => zip_mul row er) s) (length edge_index) dims) as Ssr.
  { split; [now rewrite length_map|].
    apply Forall_map. eapply Forall_impl; [|exact Fs].
    intros row Hrow. now apply zip_mul_length. }
  rewrite (mul_same_shape Ssr So). simpl. f_equal.
  apply (@single_type_scores embed (w_rels model) edge_index s o er r dims);
    try assumption.
  - now apply mapM_Forall2.
  - now apply mapM_Forall2.
Qed.

Lemma DistMult_single_type_witness :
  DistMult example_embed [(0, -1); (1, 1); (0, 0)]%Z [0%Z] example_model
  = Some (map (fun e => sigmoid (distmult_score example_embed (w_rels example_model) 2
                                   (fst e) (snd e) 0))
              [(0, -1); (1, 1); (0, 0)]%Z).
Proof.
  apply (@DistMult_single_type example_embed [(0, -1); (1, 1); (0, 0)]%Z 0%Z
           example_model 2 2 1).
  - split; [reflexivity | repeat constructor].
  - split; [reflexivity | repeat constructor].
  - repeat constructor; unfold in_range; simpl; lia.
  - unfold in_range; simpl; lia.
Defined.

(** ** Training and evaluation kept apart *)

Lemma AllCalls_pbind (P : forall X, Ext X -> Prop) B C (p : Prog B) (f : B -> Prog C) :
  AllCalls P p -> (forall b, AllCalls P (f b)) -> AllCalls P (pbind p f).
Proof.
  induction 1 as [b | X e k He _ IH]; intros Hf; simpl.
  - apply Hf.
  - constructor; [exact He|]. intros a. now apply IH.
Qed.

Lemma validation_is_evaluation data embed evaluate_rel w :
  AllCalls evaluation_call (validation data embed evaluate_rel w).
Proof.
  unfold validation.
  destruct (masked_select (edge_index data) (val_mask data)) as [pos|];
    cbn; [|constructor].
  destruct (masked_select (edge_type data) (val_mask data)) as [tys|];
    cbn; [|constructor].
  constructor; [exact I|]. intros [neg|]; cbn; [|constructor].
  destruct (cat_with_prefix _ _) as [types|]; cbn; [|constructor].
  destruct (get_link_labels _ _) as [link_labels|]; cbn; [|constructor].
  destruct (get_metrics _ _ _ _ _) as [[[loss probs] labels]|]; cbn;
    [|constructor].
  constructor; [exact I|]. intros [a|]; cbn; [|constructor].
  constructor; [exact I|]. intros [b|]; cbn; [|constructor].
  destruct evaluate_rel; cbn; [|constructor].
  eapply AllCalls_weaken; [|apply per_relation_calls_in].
  intros X [] H; try contradiction. exact I.
Qed.

Lemma report_batches_is_evaluation batches w :
  AllCalls evaluation_call (report_batches batches w).
Proof.
  revert w. induction batches as [|batch batches IH]; intros w; cbn [report_batches].
  - constructor.
  - unfold get_embeddings. cbn.
    destruct (forward _ _ _ _) as [embed|]; cbn; [|constructor].
    apply AllCalls_pbind; [apply validation_is_evaluation|].
    intros [[[]|] w1]; cbn; [apply IH | constructor].
Qed.

(** X20.  Evaluation never trains: whatever the libraries answer, a
    validation step and the whole reporting cell call only the sampler,
    the two metrics and the loader, never the backward pass, the
    optimizer or a constructor.  The parameters, which only the
    optimizer writes, are out of their reach. *)
Theorem evaluation_never_trains (data : Data) (embed : Matrix) (evaluate_rel : bool)
    (w : World) :
  AllCalls evaluation_call (validation data embed evaluate_rel w)
  /\ AllCalls evaluation_call (report w).
Proof.
  split; [apply validation_is_evaluation|].
  unfold report. cbn. constructor; [exact I|].
  intros [batches|]; cbn; [apply report_batches_is_evaluation | constructor].
Qed.

(** ** The second layer's input *)

Lemma relu_nonneg (t : Matrix) : Forall (Forall (fun v => (0 <= v)%R)) (relu t).
Proof.
  unfold relu. apply Forall_map, Forall_forall. intros row _.
  apply Forall_map, Forall_forall. intros v _. apply Rmax_l.
Qed.

(** X21.  The second layer of the encoder is only ever applied to
    features without a negative entry, with the edge index and edge types
    the first layer got: an encoder whose second layer is replaced by one
    that agrees with it on such features encodes every input alike. *)
Theorem forward_second_layer_input (self : RGCN) (conv2' : Conv) (x : Matrix)
    (edge_index : EdgeIndex) (edge_type : IntTensor) :
  (forall x1, Forall (Forall (fun v => (0 <= v)%R)) x1 ->
              conv2' x1 edge_index edge_type = conv2 self x1 edge_index edge_type) ->
  forward (mkRGCN (num_rels self) (conv1 self) conv2' (w_rels self))
          x edge_index edge_type
  = forward self x edge_index edge_type.
Proof.
  intros Hagree. unfold forward. simpl.
  destruct (conv1 self x edge_index edge_type) as [x1|]; simpl; [|reflexivity].
  now rewrite Hagree by apply relu_nonneg.
Qed.

Lemma forward_second_layer_input_witness :
  forward (mkRGCN (num_rels toy_model) (conv1 toy_model)
                  (fun x1 _ _ => Some (relu x1)) (w_rels toy_model))
          [[-1]; [1]]%R [] (Vector [])
  = forward toy_model [[-1]; [1]]%R [] (Vector []).
Proof.
  apply (@forward_second_layer_input toy_model (fun x1 _ _ => Some (relu x1))).
  intros x1 Hx1. simpl. unfold pass_through. f_equal.
  unfold relu. rewrite <- (map_id x1) at 2. apply map_ext_in. intros row Hrow.
  rewrite <- (map_id row) at 2. apply map_ext_in. intros v Hv.
  rewrite Forall_forall in Hx1. specialize (Hx1 row Hrow).
  rewrite Forall_forall in Hx1. specialize (Hx1 v Hv).
  now apply Rmax_right.
Defined.
